(* ===================================================================== *)
(* MYIR chunked-frame reassembly (electra-debug-websocket)                *)
(*                                                                       *)
(* A shallow embedding of the header parser, FrameAssembler, Reassembler *)
(* and the frames-per-second counter of the streaming client, with the   *)
(* properties of the design document stated over it.                     *)
(*                                                                       *)
(* Conventions                                                           *)
(*  - unsigned wire quantities (ids, sizes, counts) are N;               *)
(*  - wall-clock readings (Date.now()) are Z and are passed in by the    *)
(*    caller, one argument per call site that reads the clock;           *)
(*  - an ArrayBuffer / Uint8Array is a list of bytes;                    *)
(*  - a JavaScript exception is the Throw constructor of result.         *)
(* ===================================================================== *)

From Stdlib Require Import NArith ZArith QArith Lia.
From Stdlib.Strings Require Import Byte.
From stdpp Require Import strings.
From stdpp Require Import base option list gmap fin_sets fin_maps.

(* set_solver clears hypotheses by name and warns when one is absent. *)
#[local] Set Warnings "-clear-no-such-hyp".

(* --------------------------------------------------------------------- *)
(* Exceptions                                                            *)
(* --------------------------------------------------------------------- *)

Inductive JsError : Type := RangeError.

Inductive result (A : Type) : Type :=
| Ok (a : A)
| Throw (e : JsError).
Arguments Ok {A} a.
Arguments Throw {A} e.

#[global] Instance result_ret : MRet result := fun A a => Ok a.
#[global] Instance result_bind : MBind result := fun A B f r =>
  match r with
  | Ok a => f a
  | Throw e => Throw e
  end.

(* try { ... } catch (e) { return fallback } *)
Definition try_catch {A : Type} (body : result A) (fallback : A) : A :=
  match body with
  | Ok a => a
  | Throw _ => fallback
  end.

(* --------------------------------------------------------------------- *)
(* The platform operations the client calls                              *)
(* --------------------------------------------------------------------- *)

Module DataView.

(* view.getUint8(off): RangeError outside the buffer. *)
Definition getUint8 (data : list byte) (off : nat) : result N :=
  match data !! off with
  | Some b => Ok (Byte.to_N b)
  | None => Throw RangeError
  end.

(* view.getUint16(off, false): two bytes, most significant first. *)
Definition getUint16 (data : list byte) (off : nat) : result N :=
  b0 ← getUint8 data off;
  b1 ← getUint8 data (off + 1);
  Ok (N.lor (N.shiftl b0 8) b1).

(* view.getUint32(off, false): four bytes, most significant first. *)
Definition getUint32 (data : list byte) (off : nat) : result N :=
  b0 ← getUint8 data off;
  b1 ← getUint8 data (off + 1);
  b2 ← getUint8 data (off + 2);
  b3 ← getUint8 data (off + 3);
  Ok (N.lor (N.shiftl b0 24) (N.lor (N.shiftl b1 16) (N.lor (N.shiftl b2 8) b3))).

End DataView.

Module Uint8Array.

(* new Uint8Array(n): n zero bytes. *)
Definition alloc (n : N) : list byte := replicate (N.to_nat n) x00.

(* new Uint8Array(buffer, byteOffset, length): a view; RangeError when the
   requested window does not fit in the buffer. *)
Definition view (data : list byte) (byteOffset len : N) : result (list byte) :=
  if (N.of_nat (length data) <? byteOffset + len)%N then Throw RangeError
  else Ok (take (N.to_nat len) (drop (N.to_nat byteOffset) data)).

(* a.subarray(0, n) *)
Definition subarray0 (a : list byte) (n : N) : list byte := take (N.to_nat n) a.

(* a.slice(0, n) *)
Definition slice0 (a : list byte) (n : N) : list byte := take (N.to_nat n) a.

(* target.set(source, offset): RangeError when the source does not fit. *)
Definition set (target source : list byte) (offset : N) : result (list byte) :=
  if (N.of_nat (length target) <? offset + N.of_nat (length source))%N
  then Throw RangeError
  else Ok (take (N.to_nat offset) target ++ source
           ++ drop (N.to_nat offset + length source) target).

End Uint8Array.

(* --------------------------------------------------------------------- *)
(* Header                                                                *)
(* --------------------------------------------------------------------- *)

Record StreamInfo : Type := {
  frameId : N;
  chunkId : N;
  chunksTotal : N;
  frameSize : N;
  width : N;
  height : N;
  payloadLen : N
}.

Definition MYIR_MAGIC : N := 0x4d594952.
Definition MYIR_VER : N := 3.

(* The body of the try block of parseMyirHeader (36-byte header). *)
Definition parseMyirHeader_try (data : list byte) : result (option StreamInfo) :=
  if (length data <? 36)%nat then Ok None
  else
    magic ← DataView.getUint32 data 0;
    if negb (magic =? MYIR_MAGIC)%N then Ok None
    else
      ver ← DataView.getUint8 data 4;
      if negb (ver =? MYIR_VER)%N then Ok None
      else
        width ← DataView.getUint16 data 8;
        height ← DataView.getUint16 data 10;
        frameId ← DataView.getUint32 data 20;
        frameSize ← DataView.getUint32 data 24;
        chunkId ← DataView.getUint16 data 28;
        chunksTotal ← DataView.getUint16 data 30;
        payloadLen ← DataView.getUint16 data 32;
        Ok (Some {| frameId := frameId; chunkId := chunkId;
                    chunksTotal := chunksTotal; frameSize := frameSize;
                    width := width; height := height;
                    payloadLen := payloadLen |}).

Definition parseMyirHeader (data : list byte) : option StreamInfo :=
  try_catch (parseMyirHeader_try data) None.

(* The earlier client: a 32-byte header without payloadLen. *)
Module Legacy.

Record StreamInfo : Type := {
  frameId : N;
  chunkId : N;
  chunksTotal : N;
  frameSize : N;
  width : N;
  height : N
}.

Definition parseMyirHeader_try (data : list byte) : result (option StreamInfo) :=
  if (length data <? 32)%nat then Ok None
  else
    magic ← DataView.getUint32 data 0;
    if negb (magic =? MYIR_MAGIC)%N then Ok None
    else
      ver ← DataView.getUint8 data 4;
      if negb (ver =? MYIR_VER)%N then Ok None
      else
        width ← DataView.getUint16 data 8;
        height ← DataView.getUint16 data 10;
        frameId ← DataView.getUint32 data 20;
        frameSize ← DataView.getUint32 data 24;
        chunkId ← DataView.getUint16 data 28;
        chunksTotal ← DataView.getUint16 data 30;
        Ok (Some {| frameId := frameId; chunkId := chunkId;
                    chunksTotal := chunksTotal; frameSize := frameSize;
                    width := width; height := height |}).

Definition parseMyirHeader (data : list byte) : option StreamInfo :=
  try_catch (parseMyirHeader_try data) None.

End Legacy.

(* --------------------------------------------------------------------- *)
(* FrameAssembler                                                        *)
(* --------------------------------------------------------------------- *)

(* The field chunkPayloadSize of FrameAssembler: it is initialised to this
   constant in every instance and never assigned again. *)
Definition chunkPayloadSize : N := 32768.

Record FrameAssembler : Type := {
  buffer : list byte;
  receivedChunks : gset N;
  totalChunks : N;
  fa_frameSize : N;
  fa_frameId : N;
  fa_width : N;
  fa_height : N;
  lastUpdate : Z
}.

(* constructor(header); now is the reading of Date.now(). *)
Definition FrameAssembler_new (now : Z) (header : StreamInfo) : FrameAssembler :=
  {| fa_frameId := frameId header;
     fa_frameSize := frameSize header;
     totalChunks := chunksTotal header;
     fa_width := width header;
     fa_height := height header;
     buffer := Uint8Array.alloc (frameSize header);
     receivedChunks := ∅;
     lastUpdate := now |}.

Definition isComplete (fa : FrameAssembler) : bool :=
  (N.of_nat (size (receivedChunks fa)) =? totalChunks fa)%N.

(* The number of bytes addChunk copies once a chunk has passed its checks. *)
Definition bytesToCopy (fa : FrameAssembler) (cid : N) (payload : list byte) : N :=
  let offset := (cid * chunkPayloadSize)%N in
  let availableSpace := (N.of_nat (length (buffer fa)) - offset)%N in
  N.min (N.of_nat (length payload)) availableSpace.

(* addChunk(chunkId, payload); the assembler is mutated in place in the
   source, here the updated assembler is returned next to the boolean. *)
Definition addChunk (now : Z) (cid : N) (payload : list byte) (fa : FrameAssembler)
  : result (FrameAssembler * bool) :=
  if (totalChunks fa <=? cid)%N then Ok (fa, false)
  else if decide (cid ∈ receivedChunks fa) then Ok (fa, false)
  else
    let offset := (cid * chunkPayloadSize)%N in
    if (N.of_nat (length (buffer fa)) <=? offset)%N then Ok (fa, false)
    else
      buffer' ← Uint8Array.set (buffer fa)
                  (Uint8Array.subarray0 payload (bytesToCopy fa cid payload)) offset;
      let fa' := {| buffer := buffer';
                    receivedChunks := {[cid]} ∪ receivedChunks fa;
                    totalChunks := totalChunks fa;
                    fa_frameSize := fa_frameSize fa;
                    fa_frameId := fa_frameId fa;
                    fa_width := fa_width fa;
                    fa_height := fa_height fa;
                    lastUpdate := now |} in
      Ok (fa', isComplete fa').

(* getJpegData(): the local actualSize of the source is computed and never
   used; the result is buffer.slice(0, frameSize). *)
Definition getJpegData (fa : FrameAssembler) : list byte :=
  Uint8Array.slice0 (buffer fa) (fa_frameSize fa).

(* --------------------------------------------------------------------- *)
(* Reassembler                                                           *)
(* --------------------------------------------------------------------- *)

Record Reassembler : Type := {
  frames : gmap N FrameAssembler;
  maxFrames : N
}.

(* constructor(maxFrames = 8) *)
Definition Reassembler_new (maxFrames : N) : Reassembler :=
  {| frames := ∅; maxFrames := maxFrames |}.
Definition Reassembler_default : Reassembler := Reassembler_new 8.

(* push(header, payload). tNew is the clock reading of the constructor call
   (used only when the frame is new), tAdd the one of addChunk. The table
   holds the assembler object itself, so the entry is rewritten with the
   mutated assembler before the completion test. *)
Definition push (tNew tAdd : Z) (header : StreamInfo) (payload : list byte)
    (r : Reassembler) : result (Reassembler * option FrameAssembler) :=
  let '(frame, frames1) :=
    match frames r !! frameId header with
    | Some f => (f, frames r)
    | None =>
        let f := FrameAssembler_new tNew header in
        (f, <[frameId header := f]> (frames r))
    end in
  '(frame', complete) ← addChunk tAdd (chunkId header) payload frame;
  let frames2 := <[frameId header := frame']> frames1 in
  if complete : bool
  then Ok ({| frames := delete (frameId header) frames2;
              maxFrames := maxFrames r |}, Some frame')
  else Ok ({| frames := frames2; maxFrames := maxFrames r |}, None).

(* The frame ids gc collects in its forEach pass. *)
Definition gc_toDelete (now maxAgeMs : Z) (fs : gmap N FrameAssembler) : list N :=
  omap (fun kv : N * FrameAssembler =>
          if (maxAgeMs <? now - lastUpdate kv.2)%Z then Some kv.1 else None)
       (map_to_list fs).

(* gc(maxAgeMs = 1000) *)
Definition gc (now maxAgeMs : Z) (r : Reassembler) : Reassembler :=
  if (N.of_nat (size (frames r)) <=? maxFrames r)%N then r
  else
    let toDelete := gc_toDelete now maxAgeMs (frames r) in
    {| frames := foldl (fun fs fid => delete fid fs) (frames r) toDelete;
       maxFrames := maxFrames r |}.

(* --------------------------------------------------------------------- *)
(* Frames-per-second counter and the receive path                        *)
(* --------------------------------------------------------------------- *)

Record FpsCounter : Type := {
  count : N;
  lastTime : Z
}.

Definition fpsCounter_init : FpsCounter := {| count := 0; lastTime := 0 |}.

(* The counter update performed for each completed frame. The rate is the
   exact quotient; the source holds its double-precision rounding. *)
Definition fpsRecord (now : Z) (c : FpsCounter) : FpsCounter * option Q :=
  let c1 := if (lastTime c =? 0)%Z
            then {| count := count c; lastTime := now |} else c in
  let c2 := {| count := count c1 + 1; lastTime := lastTime c1 |} in
  let elapsed := (now - lastTime c2)%Z in
  if (1000 <=? elapsed)%Z
  then
    let currentFps := (inject_Z (Z.of_N (count c2) * 1000) / inject_Z elapsed)%Q in
    ({| count := 0; lastTime := now |}, Some currentFps)
  else (c2, None).

(* The clock readings taken while one datagram is processed. *)
Record Ticks : Type := {
  t_new : Z;
  t_add : Z;
  t_fps : Z;
  t_gc : Z
}.

Record Client : Type := {
  reassembler : Reassembler;
  fpsCounter : FpsCounter
}.

Record Shown : Type := {
  jpegData : option (list byte);
  currentFps : option Q
}.

Definition HDR_SIZE : N := 36.

(* processBuffer of the streaming client: parse, cut the payload view, push,
   count, collect. The copy of the client that also keeps a message log does
   the same steps around its log and display state. What is shown (the frame
   as a data URI, the rate rounded to one decimal) is left as the bytes and
   the rate themselves. *)
Definition processBuffer (tk : Ticks) (data : list byte) (st : Client)
  : result (Client * Shown) :=
  match parseMyirHeader data with
  | Some header =>
      payload ← Uint8Array.view data HDR_SIZE (payloadLen header);
      '(r1, completeFrame) ← push (t_new tk) (t_add tk) header payload (reassembler st);
      let '(fc, shown) :=
        match completeFrame with
        | Some f =>
            let '(fc, rate) := fpsRecord (t_fps tk) (fpsCounter st) in
            (fc, {| jpegData := Some (getJpegData f); currentFps := rate |})
        | None => (fpsCounter st, {| jpegData := None; currentFps := None |})
        end in
      Ok ({| reassembler := gc (t_gc tk) 1000 r1; fpsCounter := fc |}, shown)
  | None => Ok (st, {| jpegData := None; currentFps := None |})
  end.

(* --------------------------------------------------------------------- *)
(* Sequences of deliveries                                               *)
(* --------------------------------------------------------------------- *)

Record Delivery : Type := {
  d_tnew : Z;
  d_tadd : Z;
  d_header : StreamInfo;
  d_payload : list byte
}.

Definition deliver (d : Delivery) (r : Reassembler)
  : result (Reassembler * option FrameAssembler) :=
  push (d_tnew d) (d_tadd d) (d_header d) (d_payload d) r.

(* Push the deliveries one after the other, collecting what each returned. *)
Fixpoint pushAll (ds : list Delivery) (r : Reassembler)
  : result (Reassembler * list (option FrameAssembler)) :=
  match ds with
  | [] => Ok (r, [])
  | d :: ds' =>
      '(r1, o) ← deliver d r;
      '(r2, os) ← pushAll ds' r1;
      Ok (r2, o :: os)
  end.

(* ===================================================================== *)
(* Specification-side notions                                            *)
(* ===================================================================== *)

(* The value of a byte string read most significant byte first. *)
Definition be_value (bs : list byte) : N :=
  foldl (fun acc b => (acc * 256 + Byte.to_N b)%N) 0%N bs.
Arguments be_value : simpl never.

(* The len bytes of a datagram that start at offset off. *)
Definition field (data : list byte) (off len : nat) : list byte :=
  take len (drop off data).

Definition magic_bytes : list byte := [x4d; x59; x49; x52].
Definition version_byte : byte := x03.

(* The header a well-formed datagram denotes: every field read most
   significant byte first at its offset in the wire layout. *)
Definition decode_fields (data : list byte) : StreamInfo :=
  {| frameId := be_value (field data 20 4);
     chunkId := be_value (field data 28 2);
     chunksTotal := be_value (field data 30 2);
     frameSize := be_value (field data 24 4);
     width := be_value (field data 8 2);
     height := be_value (field data 10 2);
     payloadLen := be_value (field data 32 2) |}.

Definition decode_fields_legacy (data : list byte) : Legacy.StreamInfo :=
  {| Legacy.frameId := be_value (field data 20 4);
     Legacy.chunkId := be_value (field data 28 2);
     Legacy.chunksTotal := be_value (field data 30 2);
     Legacy.frameSize := be_value (field data 24 4);
     Legacy.width := be_value (field data 8 2);
     Legacy.height := be_value (field data 10 2) |}.

(* The three reasons for which a datagram is not of this protocol. *)
Definition not_myir (hdr_size : nat) (data : list byte) : Prop :=
  (length data < hdr_size)%nat
  ∨ field data 0 4 ≠ magic_bytes
  ∨ field data 4 1 ≠ [version_byte].

(* A builder of datagrams in the wire layout, used to exhibit inputs of the
   parser; it is the sender's half of the protocol and not client code. *)
Definition byte_of_N (n : N) : byte :=
  match Byte.of_N (n mod 256) with
  | Some b => b
  | None => x00
  end.

Definition encode16 (n : N) : list byte := [byte_of_N (n / 256); byte_of_N n].

Definition encode32 (n : N) : list byte :=
  [byte_of_N (n / 16777216); byte_of_N (n / 65536); byte_of_N (n / 256); byte_of_N n].

Definition encodeMyirHeader (h : StreamInfo) : list byte :=
  magic_bytes ++ [version_byte; x00; x00; x00]
  ++ encode16 (width h) ++ encode16 (height h)
  ++ replicate 8 x00
  ++ encode32 (frameId h) ++ encode32 (frameSize h)
  ++ encode16 (chunkId h) ++ encode16 (chunksTotal h)
  ++ encode16 (payloadLen h) ++ [x00; x00].

(* The range of each field on the wire. *)
Definition wire_ranges (h : StreamInfo) : Prop :=
  (frameId h < 4294967296 ∧ frameSize h < 4294967296
   ∧ chunkId h < 65536 ∧ chunksTotal h < 65536
   ∧ width h < 65536 ∧ height h < 65536 ∧ payloadLen h < 65536)%N.

(* A header with three of its fields replaced. *)
Definition with_chunking (h : StreamInfo) (cid total size : N) : StreamInfo :=
  {| frameId := frameId h; chunkId := cid; chunksTotal := total;
     frameSize := size; width := width h; height := height h;
     payloadLen := payloadLen h |}.

(* The datagram of 36 bytes with the magic, the version and zeros. *)
Definition zero_header : list byte :=
  magic_bytes ++ [version_byte] ++ replicate 31 x00.

(* The header of the 640x480 scenario: frame 7 of 70000 bytes in 3 chunks,
   here its chunk 2 with 4464 payload bytes. *)
Definition scenario_header : list byte :=
  [x4d; x59; x49; x52; x03; x00; x00; x00; x02; x80; x01; xe0]
  ++ replicate 8 x00
  ++ [x00; x00; x00; x07; x00; x01; x11; x70; x00; x02; x00; x03; x11; x70; x00; x00].

(* The assemblers a client can hold: built by the constructor and changed
   by addChunk only. *)
Inductive fa_reachable : FrameAssembler → Prop :=
| reach_new (now : Z) (header : StreamInfo) :
    fa_reachable (FrameAssembler_new now header)
| reach_add (now : Z) (cid : N) (payload : list byte)
    (fa fa' : FrameAssembler) (b : bool) :
    fa_reachable fa →
    addChunk now cid payload fa = Ok (fa', b) →
    fa_reachable fa'.

(* One call of addChunk, and a run of such calls on one assembler. *)
Record Chunk : Type := {
  c_now : Z;
  c_id : N;
  c_payload : list byte
}.

Fixpoint addChunks (cs : list Chunk) (fa : FrameAssembler) : result FrameAssembler :=
  match cs with
  | [] => Ok fa
  | c :: cs' =>
      '(fa1, _) ← addChunk (c_now c) (c_id c) (c_payload c) fa;
      addChunks cs' fa1
  end.

(* The chunk ids an assembler turns away. *)
Definition rejects (fa : FrameAssembler) (cid : N) : Prop :=
  (totalChunks fa ≤ cid)%N
  ∨ cid ∈ receivedChunks fa
  ∨ (N.of_nat (length (buffer fa)) ≤ cid * chunkPayloadSize)%N.

(* The assembler after a chunk has been taken in. *)
Definition stored (now : Z) (cid : N) (payload : list byte) (fa : FrameAssembler)
  : FrameAssembler :=
  let off := N.to_nat (cid * chunkPayloadSize) in
  let n := N.to_nat (bytesToCopy fa cid payload) in
  {| buffer := take off (buffer fa) ++ take n payload ++ drop (off + n) (buffer fa);
     receivedChunks := {[cid]} ∪ receivedChunks fa;
     totalChunks := totalChunks fa;
     fa_frameSize := fa_frameSize fa;
     fa_frameId := fa_frameId fa;
     fa_width := fa_width fa;
     fa_height := fa_height fa;
     lastUpdate := now |}.

(* A small frame for examples: frame 1 of 5 bytes in a single chunk. *)
Definition small_header : StreamInfo :=
  {| frameId := 1; chunkId := 0; chunksTotal := 1; frameSize := 5;
     width := 2; height := 2; payloadLen := 3 |}.

(* A frame of 5 bytes announced in 2 chunks, so that it stays open after
   chunk 0. *)
Definition open_header : StreamInfo :=
  {| frameId := 1; chunkId := 0; chunksTotal := 2; frameSize := 5;
     width := 2; height := 2; payloadLen := 3 |}.

(* The frame that a set of received chunks denotes. pl gives the payload
   of each chunk id; byte i of the frame belongs to chunk i / chunkPayloadSize
   and is byte i mod chunkPayloadSize of that chunk's payload, or zero when
   the chunk is not in the set or its payload is shorter. *)
Definition frame_byte (pl : N → list byte) (R : gset N) (i : nat) : byte :=
  let c := (N.of_nat i / chunkPayloadSize)%N in
  if decide (c ∈ R)
  then nth (N.to_nat (N.of_nat i mod chunkPayloadSize)) (pl c) x00
  else x00.

Definition assembled (pl : N → list byte) (R : gset N) (size : N) : list byte :=
  map (frame_byte pl R) (seq 0 (N.to_nat size)).

(* The chunk ids 0 .. n-1. *)
Definition chunk_ids (n : N) : list N := N.of_nat <$> seq 0 (N.to_nat n).
Definition all_chunks (n : N) : gset N := list_to_set (chunk_ids n).

(* The chunk id a delivery carries. *)
Definition d_cid (d : Delivery) : N := chunkId (d_header d).

(* A delivery belongs to the frame fid of n chunks and size bytes whose
   chunk payloads are given by pl: its header names the frame and announces
   n and size, and if its chunk id is one of the frame's it carries that
   chunk's payload. *)
Definition for_frame (pl : N → list byte) (fid n size : N) (d : Delivery) : Prop :=
  frameId (d_header d) = fid
  ∧ chunksTotal (d_header d) = n
  ∧ frameSize (d_header d) = size
  ∧ ((d_cid d < n)%N → d_payload d = pl (d_cid d)).

(* The chunk ids below n among those of a list of deliveries. *)
Definition valid_ids (n : N) (ds : list Delivery) : list N :=
  filter (λ c, (c < n)%N) (d_cid <$> ds).

(* No payload is longer than a chunk. *)
Definition payloads_fit (pl : N → list byte) : Prop :=
  ∀ c : N, (N.of_nat (length (pl c)) ≤ chunkPayloadSize)%N.

(* The reassembler holds, next to the entries m0 of other frames, an open
   assembler for frame fid that has received exactly the chunks R; when no
   payload is longer than a chunk its buffer is the frame of R. *)
Definition holds (pl : N → list byte) (fid n size : N)
    (m0 : gmap N FrameAssembler) (mf : N) (R : gset N) (r : Reassembler) : Prop :=
  ∃ fa : FrameAssembler,
    r = {| frames := <[fid := fa]> m0; maxFrames := mf |}
    ∧ totalChunks fa = n
    ∧ fa_frameSize fa = size
    ∧ receivedChunks fa = R
    ∧ length (buffer fa) = N.to_nat size
    ∧ (payloads_fit pl → buffer fa = assembled pl R size).

(* Deliveries for examples: chunk cid of frame fid, announced with n chunks
   and fsize bytes, arriving at time t. *)
Definition mk_header (fid cid n fsize : N) (payload : list byte) : StreamInfo :=
  {| frameId := fid; chunkId := cid; chunksTotal := n; frameSize := fsize;
     width := 640; height := 480; payloadLen := N.of_nat (length payload) |}.

Definition mk_delivery (t : Z) (fid cid n fsize : N) (payload : list byte) : Delivery :=
  {| d_tnew := t; d_tadd := t;
     d_header := mk_header fid cid n fsize payload; d_payload := payload |}.

(* Payloads of one byte: chunk 0 carries 01, every other chunk 02. *)
Definition one_byte_payloads (c : N) : list byte :=
  if (c =? 0)%N then [x01] else [x02].

(* A payload one byte longer than a chunk. *)
Definition long_payload : list byte := replicate (N.to_nat 32769) x01.

(* What a consumer observes of a run of pushes: which pushes handed over a
   frame, the last frame handed over, and one byte of a frame. *)
Definition emissions (res : result (Reassembler * list (option FrameAssembler)))
  : list bool :=
  match res with
  | Ok (_, os) => (λ o : option FrameAssembler, bool_decide (is_Some o)) <$> os
  | Throw _ => []
  end.

Definition last_emitted (res : result (Reassembler * list (option FrameAssembler)))
  : option FrameAssembler :=
  match res with
  | Ok (_, os) => mjoin (last os)
  | Throw _ => None
  end.

Definition byte_at (i : N) (f : FrameAssembler) : option byte :=
  getJpegData f !! N.to_nat i.

(* An assembler is stale at time now when its last update lies more than
   maxAgeMs back; the table without its stale assemblers. *)
Definition stale (now maxAgeMs : Z) (fa : FrameAssembler) : Prop :=
  (maxAgeMs < now - lastUpdate fa)%Z.

#[global] Instance stale_dec (now maxAgeMs : Z) (fa : FrameAssembler) :
  Decision (stale now maxAgeMs fa).
Proof. unfold stale. apply _. Defined.

Definition without_stale (now maxAgeMs : Z) (fs : gmap N FrameAssembler)
  : gmap N FrameAssembler :=
  filter (λ kv : N * FrameAssembler, ¬ stale now maxAgeMs kv.2) fs.

(* A table for examples: with room for one frame, holding frame 1 last
   updated at time 0 and frame 2 last updated at time 1500. *)
Definition two_frames : Reassembler :=
  {| frames := {[ 1%N := FrameAssembler_new 0 (mk_header 1 0 2 5 []);
                  2%N := FrameAssembler_new 1500 (mk_header 2 0 2 5 []) ]};
     maxFrames := 1 |}.

(* The start of the measurement window that a call at time now works
   with: the stored one, or now itself when none has been stored yet. *)
Definition window_start (now : Z) (c : FpsCounter) : Z :=
  if decide (lastTime c = 0)%Z then now else lastTime c.

(* What a push does to its table: the entry of its frame is removed when
   the assembler completed, and set to the assembler otherwise. *)
Definition settle (fid : N) (fa : FrameAssembler) (complete : bool)
    (fs : gmap N FrameAssembler) : gmap N FrameAssembler :=
  if complete then delete fid fs else <[fid := fa]> fs.

(* The counter update called once for each time of a list, in order. *)
Fixpoint fpsRun (times : list Z) (c : FpsCounter) : FpsCounter * list (option Q) :=
  match times with
  | [] => (c, [])
  | t :: times' =>
      let '(c1, o) := fpsRecord t c in
      let '(c2, os) := fpsRun times' c1 in
      (c2, o :: os)
  end.

(* A header of the 36-byte layout seen as one of the 32-byte layout. *)
Definition without_payloadLen (h : StreamInfo) : Legacy.StreamInfo :=
  {| Legacy.frameId := frameId h;
     Legacy.chunkId := chunkId h;
     Legacy.chunksTotal := chunksTotal h;
     Legacy.frameSize := frameSize h;
     Legacy.width := width h;
     Legacy.height := height h |}.

(* --------------------------------------------------------------------- *)
(* The progress table of the logging clients (frameStates)               *)
(* --------------------------------------------------------------------- *)

Module FrameStates.

Record FrameState : Type := {
  receivedChunks : gset N;
  totalChunks : N;
  frameSize : N
}.

(* frameStates.get(frameId), or a new state made from the header and put in
   the table; then frameState.receivedChunks.add(chunkId). The arguments are
   the four header fields that are read. *)
Definition track (fid cid total fsize : N) (fs : gmap N FrameState)
  : gmap N FrameState :=
  let frameState :=
    match fs !! fid with
    | Some s => s
    | None => {| receivedChunks := ∅; totalChunks := total; frameSize := fsize |}
    end in
  <[fid := {| receivedChunks := {[cid]} ∪ receivedChunks frameState;
              totalChunks := totalChunks frameState;
              frameSize := frameSize frameState |}]> fs.

(* Math.min(...frameStates.keys()); None stands for the Infinity that
   Math.min returns when there is no key. *)
Definition oldestFrame (fs : gmap N FrameState) : option N :=
  match (map_to_list fs).*1 with
  | [] => None
  | k :: ks => Some (foldr N.min k ks)
  end.

(* if (frameStates.size > 10) frameStates.delete(oldestFrame) *)
Definition evict (fs : gmap N FrameState) : gmap N FrameState :=
  if (10 <? size fs)%nat
  then match oldestFrame fs with
       | Some k => delete k fs
       | None => fs
       end
  else fs.

(* The progress shown for a frame:
   frameStates.get(frameId)?.receivedChunks.size || 0 *)
Definition progress (fid : N) (fs : gmap N FrameState) : nat :=
  match fs !! fid with
  | Some s => size (receivedChunks s)
  | None => 0
  end.

End FrameStates.

(* The client that logs every datagram and parses the 32-byte header. Of a
   logged message the header and the bytes are kept; its time stamp and its
   text are display only. *)
Module LegacyClient.

Record Message : Type := {
  streamInfo : option Legacy.StreamInfo;
  binaryData : list byte
}.

Record Client : Type := {
  frameStates : gmap N FrameStates.FrameState;
  messages : list Message
}.

Definition init : Client := {| frameStates := ∅; messages := [] |}.

Definition processBuffer (buffer : list byte) (st : Client) : Client :=
  match Legacy.parseMyirHeader buffer with
  | Some header =>
      let fs1 := FrameStates.track (Legacy.frameId header) (Legacy.chunkId header)
                   (Legacy.chunksTotal header) (Legacy.frameSize header)
                   (frameStates st) in
      {| frameStates := FrameStates.evict fs1;
         messages := messages st
                     ++ [{| streamInfo := Some header; binaryData := buffer |}] |}
  | None =>
      {| frameStates := frameStates st;
         messages := messages st
                     ++ [{| streamInfo := None; binaryData := buffer |}] |}
  end.

End LegacyClient.

(* The client that logs and displays: the 36-byte header, the progress
   table, the reassembler and the fps counter. The state is returned also
   when the payload view raises, since the progress table has been written
   by then. *)
Module LogClient.

Record Message : Type := {
  streamInfo : option StreamInfo;
  binaryData : list byte
}.

Record Client : Type := {
  reassembler : Reassembler;
  fpsCounter : FpsCounter;
  frameStates : gmap N FrameStates.FrameState;
  messages : list Message
}.

Definition processBuffer (tk : Ticks) (buffer : list byte) (st : Client)
  : Client * result Shown :=
  match parseMyirHeader buffer with
  | Some header =>
      let fs1 := FrameStates.track (frameId header) (chunkId header)
                   (chunksTotal header) (frameSize header) (frameStates st) in
      let st1 := {| reassembler := reassembler st; fpsCounter := fpsCounter st;
                    frameStates := fs1; messages := messages st |} in
      match Uint8Array.view buffer HDR_SIZE (payloadLen header) with
      | Throw e => (st1, Throw e)
      | Ok payload =>
          match push (t_new tk) (t_add tk) header payload (reassembler st) with
          | Throw e => (st1, Throw e)
          | Ok (r1, completeFrame) =>
              let '(fc, shown, fs2) :=
                match completeFrame with
                | Some f =>
                    let '(fc, rate) := fpsRecord (t_fps tk) (fpsCounter st) in
                    (fc, {| jpegData := Some (getJpegData f); currentFps := rate |},
                     delete (frameId header) fs1)
                | None =>
                    (fpsCounter st, {| jpegData := None; currentFps := None |}, fs1)
                end in
              ({| reassembler := gc (t_gc tk) 1000 r1;
                  fpsCounter := fc;
                  frameStates := FrameStates.evict fs2;
                  messages := messages st
                              ++ [{| streamInfo := Some header;
                                     binaryData := buffer |}] |},
               Ok shown)
          end
      end
  | None =>
      ({| reassembler := reassembler st; fpsCounter := fpsCounter st;
          frameStates := frameStates st;
          messages := messages st
                      ++ [{| streamInfo := None; binaryData := buffer |}] |},
       Ok {| jpegData := None; currentFps := None |})
  end.

End LogClient.

(* The part of the logging client's state that the streaming client has as
   well. *)
Definition streaming (st : LogClient.Client) : Client :=
  {| reassembler := LogClient.reassembler st;
     fpsCounter := LogClient.fpsCounter st |}.

(* A full progress table for examples: frames 1 to 10, each of 2 chunks and
   5 bytes with nothing received. *)
Definition ten_frames : gmap N FrameStates.FrameState :=
  list_to_map
    ((λ k : N, (k, {| FrameStates.receivedChunks := ∅;
                      FrameStates.totalChunks := 2;
                      FrameStates.frameSize := 5 |}))
       <$> [1; 2; 3; 4; 5; 6; 7; 8; 9; 10]%N).

(* --------------------------------------------------------------------- *)
(* Text helpers of the clients. A string is the list of its UTF-16 code  *)
(* units.                                                                *)
(* --------------------------------------------------------------------- *)

(* The code units of a string literal. *)
Definition codes (s : String.string) : list N :=
  Ascii.N_of_ascii <$> String.list_ascii_of_string s.

(* The digit characters of n.toString(16): 0-9 and a-f. *)
Definition hex_digit (d : N) : N := if (d <? 10)%N then (48 + d)%N else (87 + d)%N.

(* n.toString(16): the digits are produced from the least significant one;
   a number needs no more hexadecimal digits than binary ones, which bounds
   the recursion. *)
Fixpoint toString16_digits (fuel : nat) (n : N) (acc : list N) : list N :=
  match fuel with
  | O => acc
  | S fuel' =>
      let acc' := hex_digit (n mod 16) :: acc in
      if (n <? 16)%N then acc' else toString16_digits fuel' (n / 16) acc'
  end.

Definition toString16 (n : N) : list N :=
  toString16_digits (S (N.to_nat (N.log2 n))) n [].

(* s.padStart(len, fill) for a fill string of one code unit. *)
Definition padStart (len : nat) (fill : N) (s : list N) : list N :=
  replicate (len - length s) fill ++ s.

(* The loop of stringToHex over the code units that are left, i being the
   index of the first of them and hex the text built so far. *)
Fixpoint stringToHex_loop (rest : list N) (i : nat) (hex : list N) : list N :=
  match rest with
  | [] => hex
  | c :: rest' =>
      let byte := padStart 2 48 (toString16 c) in
      let hex1 := hex ++ byte ++ [32%N] in
      let hex2 := if ((i + 1) mod 16 =? 0)%nat then hex1 ++ [10%N] else hex1 in
      stringToHex_loop rest' (S i) hex2
  end.

Definition stringToHex (str : list N) : list N := stringToHex_loop str 0 [].

(* uint8ArrayToBase64: the bytes are turned into a string 8192 at a time and
   the string is handed to btoa, a function of the platform. *)
Definition subarray (a : list byte) (first last : nat) : list byte :=
  take (last - first) (drop first a).

Definition fromCharCodes (chunk : list byte) : list N := Byte.to_N <$> chunk.

Definition chunkSize : nat := N.to_nat 8192.

(* The for loop; it runs at most once for each byte, which bounds the
   recursion. *)
Fixpoint binary_loop (fuel : nat) (bytes : list byte) (i : nat) (binary : list N)
  : list N :=
  match fuel with
  | O => binary
  | S fuel' =>
      if (i <? length bytes)%nat
      then
        let chunk := subarray bytes i (Nat.min (i + chunkSize) (length bytes)) in
        binary_loop fuel' bytes (i + chunkSize) (binary ++ fromCharCodes chunk)
      else binary
  end.

Definition uint8ArrayToBase64 (btoa : list N → list N) (bytes : list byte) : list N :=
  btoa (binary_loop (S (length bytes)) bytes 0 []).

(* The value of a string of hexadecimal digits, for stating what toString16
   produces. *)
Definition hex_digit_value (c : N) : N := if (c <? 58)%N then (c - 48)%N else (c - 87)%N.

Definition hex_value (ds : list N) : N :=
  foldl (λ acc d, (acc * 16 + hex_digit_value d)%N) 0%N ds.

(* The text stringToHex writes for the code unit c < 256 at index i. *)
Definition hex_group (i : nat) (c : N) : list N :=
  [hex_digit (c / 16); hex_digit (c mod 16); 32%N]
  ++ (if ((i + 1) mod 16 =? 0)%nat then [10%N] else []).

(* The groups of the code units of str, the first of them at index i. *)
Fixpoint hex_groups (i : nat) (str : list N) : list N :=
  match str with
  | [] => []
  | c :: rest => hex_group i c ++ hex_groups (S i) rest
  end.

(* str.startsWith(prefix) *)
Definition startsWith (prefix str : list N) : bool :=
  bool_decide (take (length prefix) str = prefix).

(* The character class [A-Za-z0-9+/]. *)
Definition is_base64_char (c : N) : bool :=
  ((65 <=? c) && (c <=? 90) || (97 <=? c) && (c <=? 122)
   || (48 <=? c) && (c <=? 57) || (c =? 43) || (c =? 47))%N.

(* /^[A-Za-z0-9+/]+=*$/.test(s): one or more characters of the class, then
   equals signs only, up to the end. *)
Fixpoint base64_rest (s : list N) : bool :=
  match s with
  | [] => true
  | c :: s' => if is_base64_char c then base64_rest s' else forallb (N.eqb 61) s
  end.

Definition base64_test (s : list N) : bool :=
  match s with
  | [] => false
  | c :: s' => is_base64_char c && base64_rest s'
  end.

Definition isBase64Image (str : list N) : bool :=
  startsWith (codes "data:image/") str
  || ((100 <? length str)%nat && base64_test (take 100 str)).

(* What the pushes for frame fid returned, out of the results os of a run
   of the deliveries ds. *)
Definition own_results (fid : N) (ds : list Delivery)
    (os : list (option FrameAssembler)) : list (option FrameAssembler) :=
  snd <$> filter (λ p : Delivery * option FrameAssembler,
                    frameId (d_header p.1) = fid) (zip ds os).

(* The chunk ids an assembler can take in at all: below totalChunks and
   with an offset inside the buffer. *)
Definition acceptable (fa : FrameAssembler) (c : N) : Prop :=
  (c < totalChunks fa)%N ∧ (c * chunkPayloadSize < N.of_nat (length (buffer fa)))%N.

#[global] Instance acceptable_dec (fa : FrameAssembler) (c : N) :
  Decision (acceptable fa c).
Proof. unfold acceptable. apply _. Defined.

(* ===================================================================== *)
(* Bytes and big-endian reads                                            *)
(* ===================================================================== *)

Lemma byte_to_N_lt (b : byte) : (Byte.to_N b < 256)%N.
Proof. pose proof (Byte.to_N_bounded b). lia. Qed.

Lemma byte_to_N_inj (a b : byte) : Byte.to_N a = Byte.to_N b → a = b.
Proof.
  intros E. pose proof (Byte.of_to_N a) as Ha.
  rewrite E, Byte.of_to_N in Ha. congruence.
Qed.

Lemma land_shiftl_low (a b k : N) : (b < 2 ^ k)%N → N.land (N.shiftl a k) b = 0%N.
Proof.
  intros Hb. apply N.bits_inj. intros i.
  rewrite N.land_spec, N.bits_0.
  destruct (N.lt_ge_cases i k) as [Hi | Hi].
  - rewrite N.shiftl_spec_low by exact Hi. reflexivity.
  - replace (N.testbit b i) with false; [apply andb_false_r |].
    symmetry. rewrite <- (N.mod_small b (2 ^ k)) by exact Hb.
    apply N.mod_pow2_bits_high. exact Hi.
Qed.

Lemma lor_shiftl_add (a b k : N) :
  (b < 2 ^ k)%N → N.lor (N.shiftl a k) b = (a * 2 ^ k + b)%N.
Proof.
  intros Hb. pose proof (land_shiftl_low a b k Hb) as Hl.
  rewrite <- N.lxor_lor by exact Hl.
  rewrite <- N.add_nocarry_lxor by exact Hl.
  rewrite N.shiftl_mul_pow2. reflexivity.
Qed.

Lemma be_value_2 (b0 b1 : byte) :
  N.lor (N.shiftl (Byte.to_N b0) 8) (Byte.to_N b1) = be_value [b0; b1].
Proof.
  pose proof (byte_to_N_lt b1).
  rewrite lor_shiftl_add by (simpl; lia).
  unfold be_value. simpl foldl. lia.
Qed.

Lemma be_value_4 (b0 b1 b2 b3 : byte) :
  N.lor (N.shiftl (Byte.to_N b0) 24)
    (N.lor (N.shiftl (Byte.to_N b1) 16)
       (N.lor (N.shiftl (Byte.to_N b2) 8) (Byte.to_N b3)))
  = be_value [b0; b1; b2; b3].
Proof.
  pose proof (byte_to_N_lt b1). pose proof (byte_to_N_lt b2).
  pose proof (byte_to_N_lt b3).
  rewrite (lor_shiftl_add _ (Byte.to_N b3) 8) by (simpl; lia).
  rewrite (lor_shiftl_add _ _ 16) by (simpl; lia).
  rewrite (lor_shiftl_add _ _ 24) by (simpl; lia).
  unfold be_value. simpl foldl. simpl N.pow. lia.
Qed.

Lemma be_value_lt_2 (bs : list byte) : length bs = 2%nat → (be_value bs < 65536)%N.
Proof.
  destruct bs as [|b0 [|b1 [|? ?]]]; try discriminate. intros _.
  pose proof (byte_to_N_lt b0). pose proof (byte_to_N_lt b1).
  unfold be_value. simpl foldl. lia.
Qed.

Lemma be_value_lt_4 (bs : list byte) : length bs = 4%nat → (be_value bs < 4294967296)%N.
Proof.
  destruct bs as [|b0 [|b1 [|b2 [|b3 [|? ?]]]]]; try discriminate. intros _.
  pose proof (byte_to_N_lt b0). pose proof (byte_to_N_lt b1).
  pose proof (byte_to_N_lt b2). pose proof (byte_to_N_lt b3).
  unfold be_value. simpl foldl. lia.
Qed.

Lemma field_length (data : list byte) (off len : nat) :
  (off + len ≤ length data)%nat → length (field data off len) = len.
Proof.
  intros H. unfold field. rewrite length_take, length_drop. lia.
Qed.

Lemma field_lookup (data : list byte) (off len i : nat) :
  (i < len)%nat → field data off len !! i = data !! (off + i)%nat.
Proof.
  intros H. unfold field. rewrite lookup_take_lt by exact H.
  apply lookup_drop.
Qed.

Lemma getUint8_field (data : list byte) (off : nat) :
  (off + 1 ≤ length data)%nat →
  DataView.getUint8 data off = Ok (be_value (field data off 1)).
Proof.
  intros H. pose proof (field_length data off 1 H) as L.
  pose proof (field_lookup data off 1 0 ltac:(lia)) as E0.
  destruct (field data off 1) as [|b0 [|? ?]]; try discriminate.
  unfold DataView.getUint8. replace (off + 0)%nat with off in E0 by lia.
  rewrite <- E0. simpl. unfold be_value. simpl. reflexivity.
Qed.

Lemma getUint16_field (data : list byte) (off : nat) :
  (off + 2 ≤ length data)%nat →
  DataView.getUint16 data off = Ok (be_value (field data off 2)).
Proof.
  intros H. pose proof (field_length data off 2 H) as L.
  pose proof (field_lookup data off 2 0 ltac:(lia)) as E0.
  pose proof (field_lookup data off 2 1 ltac:(lia)) as E1.
  destruct (field data off 2) as [|b0 [|b1 [|? ?]]]; try discriminate.
  unfold DataView.getUint16, DataView.getUint8.
  replace (off + 0)%nat with off in E0 by lia.
  rewrite <- E0, <- E1. simpl. rewrite be_value_2. reflexivity.
Qed.

Lemma getUint32_field (data : list byte) (off : nat) :
  (off + 4 ≤ length data)%nat →
  DataView.getUint32 data off = Ok (be_value (field data off 4)).
Proof.
  intros H. pose proof (field_length data off 4 H) as L.
  pose proof (field_lookup data off 4 0 ltac:(lia)) as E0.
  pose proof (field_lookup data off 4 1 ltac:(lia)) as E1.
  pose proof (field_lookup data off 4 2 ltac:(lia)) as E2.
  pose proof (field_lookup data off 4 3 ltac:(lia)) as E3.
  destruct (field data off 4) as [|b0 [|b1 [|b2 [|b3 [|? ?]]]]]; try discriminate.
  unfold DataView.getUint32, DataView.getUint8.
  replace (off + 0)%nat with off in E0 by lia.
  rewrite <- E0, <- E1, <- E2, <- E3. simpl. rewrite be_value_4. reflexivity.
Qed.

Lemma magic_value_iff (bs : list byte) :
  length bs = 4%nat → (be_value bs = MYIR_MAGIC ↔ bs = magic_bytes).
Proof.
  destruct bs as [|b0 [|b1 [|b2 [|b3 [|? ?]]]]]; try discriminate. intros _.
  split.
  - pose proof (byte_to_N_lt b0). pose proof (byte_to_N_lt b1).
    pose proof (byte_to_N_lt b2). pose proof (byte_to_N_lt b3).
    unfold be_value, MYIR_MAGIC. simpl foldl. intros E.
    assert (Byte.to_N b0 = Byte.to_N x4d) by (simpl; lia).
    assert (Byte.to_N b1 = Byte.to_N x59) by (simpl; lia).
    assert (Byte.to_N b2 = Byte.to_N x49) by (simpl; lia).
    assert (Byte.to_N b3 = Byte.to_N x52) by (simpl; lia).
    unfold magic_bytes. f_equal; [|f_equal; [|f_equal; [|f_equal]]];
      by apply byte_to_N_inj.
  - intros ->. reflexivity.
Qed.

Lemma version_value_iff (bs : list byte) :
  length bs = 1%nat → (be_value bs = MYIR_VER ↔ bs = [version_byte]).
Proof.
  destruct bs as [|b0 [|? ?]]; try discriminate. intros _.
  split.
  - unfold be_value, MYIR_VER. simpl foldl. intros E.
    f_equal. apply byte_to_N_inj. simpl. lia.
  - intros ->. reflexivity.
Qed.

(* ===================================================================== *)
(* The header parser                                                     *)
(* ===================================================================== *)

Ltac read_fields data :=
  repeat first
    [ rewrite (getUint32_field data) by lia
    | rewrite (getUint16_field data) by lia
    | rewrite (getUint8_field data) by lia ];
  cbn [mbind result_bind mret result_ret].

Lemma parse_try_short (data : list byte) :
  (length data < 36)%nat → parseMyirHeader_try data = Ok None.
Proof.
  intros H. unfold parseMyirHeader_try.
  destruct (Nat.ltb_spec (length data) 36); [reflexivity | lia].
Qed.

Lemma parse_try_long (data : list byte) :
  (36 ≤ length data)%nat →
  parseMyirHeader_try data =
    Ok (if (be_value (field data 0 4) =? MYIR_MAGIC)%N
        then if (be_value (field data 4 1) =? MYIR_VER)%N
             then Some (decode_fields data) else None
        else None).
Proof.
  intros H. unfold parseMyirHeader_try.
  destruct (Nat.ltb_spec (length data) 36); [lia |].
  read_fields data.
  destruct (be_value (field data 0 4) =? MYIR_MAGIC)%N; [|reflexivity].
  cbn [negb]. read_fields data.
  destruct (be_value (field data 4 1) =? MYIR_VER)%N; [|reflexivity].
  cbn [negb]. read_fields data. reflexivity.
Qed.

Lemma legacy_parse_try_short (data : list byte) :
  (length data < 32)%nat → Legacy.parseMyirHeader_try data = Ok None.
Proof.
  intros H. unfold Legacy.parseMyirHeader_try.
  destruct (Nat.ltb_spec (length data) 32); [reflexivity | lia].
Qed.

Lemma legacy_parse_try_long (data : list byte) :
  (32 ≤ length data)%nat →
  Legacy.parseMyirHeader_try data =
    Ok (if (be_value (field data 0 4) =? MYIR_MAGIC)%N
        then if (be_value (field data 4 1) =? MYIR_VER)%N
             then Some (decode_fields_legacy data) else None
        else None).
Proof.
  intros H. unfold Legacy.parseMyirHeader_try.
  destruct (Nat.ltb_spec (length data) 32); [lia |].
  read_fields data.
  destruct (be_value (field data 0 4) =? MYIR_MAGIC)%N; [|reflexivity].
  cbn [negb]. read_fields data.
  destruct (be_value (field data 4 1) =? MYIR_VER)%N; [|reflexivity].
  cbn [negb]. read_fields data. reflexivity.
Qed.

(* What the parser answers, by cases on the datagram. *)
Lemma parse_cases (data : list byte) :
  (not_myir 36 data ∧ parseMyirHeader_try data = Ok None)
  ∨ (¬ not_myir 36 data ∧ parseMyirHeader_try data = Ok (Some (decode_fields data))).
Proof.
  unfold not_myir.
  destruct (Nat.lt_ge_cases (length data) 36) as [Hs | Hl].
  - left. split; [by left | by apply parse_try_short].
  - rewrite (parse_try_long data Hl).
    pose proof (magic_value_iff (field data 0 4) (field_length data 0 4 ltac:(lia))) as Hm.
    pose proof (version_value_iff (field data 4 1) (field_length data 4 1 ltac:(lia))) as Hv.
    destruct (N.eqb_spec (be_value (field data 0 4)) MYIR_MAGIC) as [Em | Em].
    + destruct (N.eqb_spec (be_value (field data 4 1)) MYIR_VER) as [Ev | Ev].
      * right. split; [|reflexivity].
        intros [? | [? | ?]]; [lia | tauto | tauto].
      * left. split; [|reflexivity]. right. right. tauto.
    + left. split; [|reflexivity]. right. left. tauto.
Qed.

Lemma legacy_parse_cases (data : list byte) :
  (not_myir 32 data ∧ Legacy.parseMyirHeader_try data = Ok None)
  ∨ (¬ not_myir 32 data
     ∧ Legacy.parseMyirHeader_try data = Ok (Some (decode_fields_legacy data))).
Proof.
  unfold not_myir.
  destruct (Nat.lt_ge_cases (length data) 32) as [Hs | Hl].
  - left. split; [by left | by apply legacy_parse_try_short].
  - rewrite (legacy_parse_try_long data Hl).
    pose proof (magic_value_iff (field data 0 4) (field_length data 0 4 ltac:(lia))) as Hm.
    pose proof (version_value_iff (field data 4 1) (field_length data 4 1 ltac:(lia))) as Hv.
    destruct (N.eqb_spec (be_value (field data 0 4)) MYIR_MAGIC) as [Em | Em].
    + destruct (N.eqb_spec (be_value (field data 4 1)) MYIR_VER) as [Ev | Ev].
      * right. split; [|reflexivity].
        intros [? | [? | ?]]; [lia | tauto | tauto].
      * left. split; [|reflexivity]. right. right. tauto.
    + left. split; [|reflexivity]. right. left. tauto.
Qed.

Lemma parse_Some (data : list byte) (h : StreamInfo) :
  parseMyirHeader data = Some h →
  (36 ≤ length data)%nat ∧ h = decode_fields data.
Proof.
  unfold parseMyirHeader.
  destruct (parse_cases data) as [[_ E] | [Hn E]]; rewrite E; simpl; [discriminate |].
  intros [= <-]. split; [|reflexivity].
  unfold not_myir in Hn. destruct (Nat.lt_ge_cases (length data) 36); tauto.
Qed.

(** C4. parseMyirHeader answers null exactly when the datagram is shorter
    than the header (36 bytes, 32 in the legacy client), or its first four
    bytes are not the magic, or its fifth byte is not the version; the body
    of its try block never throws, so the catch handler is dead; when it
    answers a header, every field is the big-endian value of the bytes at the
    field's fixed offset. The parser is a function of the datagram alone. *)
Theorem parseMyirHeader_total_decode (data : list byte) :
  (parseMyirHeader data = None ↔ not_myir 36 data)
  ∧ (∃ r, parseMyirHeader_try data = Ok r)
  ∧ (∀ h, parseMyirHeader data = Some h →
       width h = be_value (field data 8 2)
       ∧ height h = be_value (field data 10 2)
       ∧ frameId h = be_value (field data 20 4)
       ∧ frameSize h = be_value (field data 24 4)
       ∧ chunkId h = be_value (field data 28 2)
       ∧ chunksTotal h = be_value (field data 30 2)
       ∧ payloadLen h = be_value (field data 32 2))
  ∧ (Legacy.parseMyirHeader data = None ↔ not_myir 32 data)
  ∧ (∃ r, Legacy.parseMyirHeader_try data = Ok r)
  ∧ (∀ h, Legacy.parseMyirHeader data = Some h →
       Legacy.width h = be_value (field data 8 2)
       ∧ Legacy.height h = be_value (field data 10 2)
       ∧ Legacy.frameId h = be_value (field data 20 4)
       ∧ Legacy.frameSize h = be_value (field data 24 4)
       ∧ Legacy.chunkId h = be_value (field data 28 2)
       ∧ Legacy.chunksTotal h = be_value (field data 30 2)).
Proof.
  unfold parseMyirHeader, Legacy.parseMyirHeader.
  destruct (parse_cases data) as [[Hn E] | [Hn E]];
    destruct (legacy_parse_cases data) as [[Hn' E'] | [Hn' E']];
    rewrite E, E'; simpl;
    repeat split; eauto; try discriminate; try tauto;
    try match goal with
        | H : Some _ = Some _ |- _ => injection H as <-; reflexivity
        end.
Qed.

(* Datagrams built by the encoder read back field by field. *)

Lemma to_N_byte_of_N (n : N) : Byte.to_N (byte_of_N n) = (n mod 256)%N.
Proof.
  unfold byte_of_N. destruct (Byte.of_N (n mod 256)) as [b|] eqn:E.
  - by apply Byte.to_of_N.
  - apply Byte.of_N_None_iff in E.
    pose proof (N.mod_lt n 256 ltac:(lia)). lia.
Qed.

Lemma be_value_encode16 (n : N) : (n < 65536)%N → be_value (encode16 n) = n.
Proof.
  intros H. unfold be_value, encode16. simpl foldl.
  rewrite !to_N_byte_of_N.
  rewrite (N.mod_small (n / 256) 256)
    by (apply N.Div0.div_lt_upper_bound; lia).
  pose proof (N.div_mod n 256 ltac:(lia)). lia.
Qed.

Lemma be_value_encode32 (n : N) : (n < 4294967296)%N → be_value (encode32 n) = n.
Proof.
  intros H. unfold be_value, encode32. simpl foldl.
  rewrite !to_N_byte_of_N.
  assert (D1 : (n / 65536 = n / 256 / 256)%N)
    by (rewrite N.Div0.div_div; reflexivity).
  assert (D2 : (n / 16777216 = n / 65536 / 256)%N)
    by (rewrite N.Div0.div_div; reflexivity).
  pose proof (N.div_mod n 256 ltac:(lia)) as E0.
  pose proof (N.div_mod (n / 256) 256 ltac:(lia)) as E1.
  pose proof (N.div_mod (n / 65536) 256 ltac:(lia)) as E2.
  rewrite <- D1 in E1. rewrite <- D2 in E2.
  rewrite (N.mod_small (n / 16777216) 256)
    by (apply N.Div0.div_lt_upper_bound; lia).
  lia.
Qed.

Lemma parse_encode (h : StreamInfo) (payload : list byte) :
  wire_ranges h → parseMyirHeader (encodeMyirHeader h ++ payload) = Some h.
Proof.
  intros (H1 & H2 & H3 & H4 & H5 & H6 & H7).
  unfold parseMyirHeader.
  rewrite parse_try_long by (rewrite length_app; simpl; lia).
  change (field (encodeMyirHeader h ++ payload) 0 4) with magic_bytes.
  change (field (encodeMyirHeader h ++ payload) 4 1) with [version_byte].
  change (be_value magic_bytes =? MYIR_MAGIC)%N with true.
  change (be_value [version_byte] =? MYIR_VER)%N with true.
  cbn [try_catch]. f_equal. unfold decode_fields.
  change (field (encodeMyirHeader h ++ payload) 20 4) with (encode32 (frameId h)).
  change (field (encodeMyirHeader h ++ payload) 24 4) with (encode32 (frameSize h)).
  change (field (encodeMyirHeader h ++ payload) 28 2) with (encode16 (chunkId h)).
  change (field (encodeMyirHeader h ++ payload) 30 2) with (encode16 (chunksTotal h)).
  change (field (encodeMyirHeader h ++ payload) 8 2) with (encode16 (width h)).
  change (field (encodeMyirHeader h ++ payload) 10 2) with (encode16 (height h)).
  change (field (encodeMyirHeader h ++ payload) 32 2) with (encode16 (payloadLen h)).
  rewrite !be_value_encode16, !be_value_encode32 by assumption.
  by destruct h.
Qed.

Lemma decode_fields_ranges (data : list byte) :
  (36 ≤ length data)%nat → wire_ranges (decode_fields data).
Proof.
  intros H. unfold wire_ranges, decode_fields. simpl.
  repeat split;
    first [ apply be_value_lt_4; apply field_length; lia
          | apply be_value_lt_2; apply field_length; lia ].
Qed.

Lemma scenario_header_parses :
  parseMyirHeader scenario_header
  = Some {| frameId := 7; chunkId := 2; chunksTotal := 3; frameSize := 70000;
            width := 640; height := 480; payloadLen := 4464 |}.
Proof. vm_compute. reflexivity. Qed.

(** C3 (as the client has it). The parser checks the length, the magic and
    the version and nothing else. A header it returns is bounded by the width
    of its fields on the wire only: chunkId and chunksTotal are below 65536
    and frameSize is below 4294967296; and whatever values in these ranges
    replace chunkId, chunksTotal and frameSize, there is a datagram that the
    parser returns as a valid header with exactly these values. *)
Theorem parse_valid_header_bounds (data : list byte) (h : StreamInfo) :
  parseMyirHeader data = Some h →
  (chunkId h < 65536 ∧ chunksTotal h < 65536 ∧ frameSize h < 4294967296)%N
  ∧ ∀ cid total size : N,
      (cid < 65536)%N → (total < 65536)%N → (size < 4294967296)%N →
      ∃ data' : list byte,
        parseMyirHeader data' = Some (with_chunking h cid total size).
Proof.
  intros Hp. apply parse_Some in Hp as [Hl ->].
  pose proof (decode_fields_ranges data Hl) as (H1 & H2 & H3 & H4 & H5 & H6 & H7).
  split; [tauto |].
  intros cid total size Hc Ht Hs.
  exists (encodeMyirHeader (with_chunking (decode_fields data) cid total size) ++ []).
  apply parse_encode. unfold wire_ranges, with_chunking. simpl. tauto.
Qed.

Lemma parse_valid_header_bounds_witness :
  parseMyirHeader scenario_header
  = Some {| frameId := 7; chunkId := 2; chunksTotal := 3; frameSize := 70000;
            width := 640; height := 480; payloadLen := 4464 |}
  ∧ (2 < 65536 ∧ 3 < 65536 ∧ 70000 < 4294967296)%N.
Proof.
  split; [exact scenario_header_parses |].
  exact (proj1 (parse_valid_header_bounds scenario_header _ scenario_header_parses)).
Defined.

(** C3 (as stated) fails: the 36-byte datagram made of the magic, the version
    and zeros is returned as a valid header although its chunkId is not below
    its chunksTotal and its frameSize and chunksTotal are zero. *)
Lemma parse_accepts_degenerate_header :
  ∃ h : StreamInfo,
    parseMyirHeader zero_header = Some h
    ∧ ¬ (chunkId h < chunksTotal h)%N
    ∧ ¬ (0 < frameSize h)%N
    ∧ ¬ (0 < chunksTotal h)%N.
Proof.
  exists {| frameId := 0; chunkId := 0; chunksTotal := 0; frameSize := 0;
            width := 0; height := 0; payloadLen := 0 |}.
  split; [vm_compute; reflexivity |].
  simpl. lia.
Qed.

(* ===================================================================== *)
(* FrameAssembler: one chunk                                             *)
(* ===================================================================== *)

Lemma bytesToCopy_fits (fa : FrameAssembler) (cid : N) (payload : list byte) :
  (cid * chunkPayloadSize < N.of_nat (length (buffer fa)))%N →
  (cid * chunkPayloadSize + bytesToCopy fa cid payload
   ≤ N.of_nat (length (buffer fa)))%N
  ∧ (bytesToCopy fa cid payload ≤ N.of_nat (length payload))%N.
Proof. unfold bytesToCopy. lia. Qed.

Lemma addChunk_rejects (now : Z) (cid : N) (payload : list byte) (fa : FrameAssembler) :
  rejects fa cid → addChunk now cid payload fa = Ok (fa, false).
Proof.
  unfold rejects, addChunk. intros H.
  destruct (N.leb_spec (totalChunks fa) cid); [reflexivity |].
  destruct (decide (cid ∈ receivedChunks fa)); [reflexivity |].
  cbv zeta.
  destruct (N.leb_spec (N.of_nat (length (buffer fa))) (cid * chunkPayloadSize));
    [reflexivity |].
  exfalso. destruct H as [? | [? | ?]]; [lia | done | lia].
Qed.

Lemma addChunk_stores (now : Z) (cid : N) (payload : list byte) (fa : FrameAssembler) :
  ¬ rejects fa cid →
  addChunk now cid payload fa
  = Ok (stored now cid payload fa, isComplete (stored now cid payload fa)).
Proof.
  unfold rejects, addChunk. intros H.
  destruct (N.leb_spec (totalChunks fa) cid); [tauto |].
  destruct (decide (cid ∈ receivedChunks fa)); [tauto |].
  cbv zeta.
  destruct (N.leb_spec (N.of_nat (length (buffer fa))) (cid * chunkPayloadSize));
    [tauto |].
  destruct (bytesToCopy_fits fa cid payload ltac:(assumption)) as [Hfit Hle].
  unfold Uint8Array.set, Uint8Array.subarray0.
  rewrite length_take.
  destruct (N.ltb_spec (N.of_nat (length (buffer fa)))
              (cid * chunkPayloadSize
               + N.of_nat (N.to_nat (bytesToCopy fa cid payload) `min` length payload)));
    [lia |].
  cbn [mbind result_bind]. unfold stored.
  replace (N.to_nat (bytesToCopy fa cid payload) `min` length payload)%nat
    with (N.to_nat (bytesToCopy fa cid payload)) by lia.
  reflexivity.
Qed.

Lemma rejects_dec (fa : FrameAssembler) (cid : N) : rejects fa cid ∨ ¬ rejects fa cid.
Proof.
  unfold rejects.
  destruct (N.le_gt_cases (totalChunks fa) cid); [tauto |].
  destruct (decide (cid ∈ receivedChunks fa)); [tauto |].
  destruct (N.le_gt_cases (N.of_nat (length (buffer fa))) (cid * chunkPayloadSize));
    [tauto |].
  right. intros [? | [? | ?]]; [lia | done | lia].
Qed.

(* addChunk has two outcomes and neither is an exception. *)
Lemma addChunk_cases (now : Z) (cid : N) (payload : list byte) (fa : FrameAssembler) :
  (rejects fa cid ∧ addChunk now cid payload fa = Ok (fa, false))
  ∨ (¬ rejects fa cid
     ∧ addChunk now cid payload fa
       = Ok (stored now cid payload fa, isComplete (stored now cid payload fa))).
Proof.
  destruct (rejects_dec fa cid) as [H | H].
  - left. split; [exact H | by apply addChunk_rejects].
  - right. split; [exact H | by apply addChunk_stores].
Qed.

Lemma stored_length (now : Z) (cid : N) (payload : list byte) (fa : FrameAssembler) :
  ¬ rejects fa cid →
  length (buffer (stored now cid payload fa)) = length (buffer fa).
Proof.
  intros H. unfold rejects in H.
  assert (cid * chunkPayloadSize < N.of_nat (length (buffer fa)))%N as Hoff by lia.
  destruct (bytesToCopy_fits fa cid payload Hoff) as [Hfit Hle].
  unfold stored. cbn [buffer].
  rewrite !length_app, !length_take, length_drop. lia.
Qed.

Lemma stored_rejects_same (now : Z) (cid : N) (payload : list byte) (fa : FrameAssembler) :
  rejects (stored now cid payload fa) cid.
Proof. unfold rejects, stored. cbn. right. left. set_solver. Qed.

Lemma stored_rejects_mono (now : Z) (cid c : N) (payload : list byte)
    (fa : FrameAssembler) :
  ¬ rejects fa cid → rejects fa c → rejects (stored now cid payload fa) c.
Proof.
  intros Hn H. pose proof (stored_length now cid payload fa Hn) as L.
  unfold rejects in *. rewrite L. cbn [totalChunks receivedChunks stored].
  destruct H as [? | [? | ?]]; [by left | right; left; set_solver | by right; right].
Qed.

(* Once an assembler turns a chunk id away it does so for ever. *)
Lemma addChunks_rejects (cs : list Chunk) (fa fa' : FrameAssembler) (c : N) :
  rejects fa c → addChunks cs fa = Ok fa' → rejects fa' c.
Proof.
  revert fa. induction cs as [|x cs IH]; intros fa Hr E; simpl in E.
  - by injection E as <-.
  - destruct (addChunk_cases (c_now x) (c_id x) (c_payload x) fa) as [[_ Ea] | [Hn Ea]];
      rewrite Ea in E; cbn [mbind result_bind] in E.
    + by apply (IH fa).
    + apply (IH _ (stored_rejects_mono _ _ _ _ _ Hn Hr) E).
Qed.

Lemma fa_reachable_length (fa : FrameAssembler) :
  fa_reachable fa → length (buffer fa) = N.to_nat (fa_frameSize fa).
Proof.
  induction 1 as [now header | now cid payload fa fa' b _ IH E].
  - unfold FrameAssembler_new, Uint8Array.alloc. cbn. apply length_replicate.
  - destruct (addChunk_cases now cid payload fa) as [[_ Ea] | [Hn Ea]];
      rewrite Ea in E; injection E as <- <-; [exact IH |].
    rewrite stored_length by exact Hn. exact IH.
Qed.

(** C2. The buffer of an assembler has exactly frameSize bytes from the
    constructor on, and no addChunk changes its length or frameSize; addChunk
    never throws, and a chunk that is taken in is copied with
    offset + bytesToCopy within the buffer, bytesToCopy being the smaller of
    the payload length and the space left after the offset; getJpegData
    returns exactly frameSize bytes, whatever the size of the chunks that
    arrived. *)
Theorem buffer_length_fixed (fa : FrameAssembler) :
  fa_reachable fa →
  length (buffer fa) = N.to_nat (fa_frameSize fa)
  ∧ length (getJpegData fa) = N.to_nat (fa_frameSize fa)
  ∧ ∀ (now : Z) (cid : N) (payload : list byte),
      ∃ (fa' : FrameAssembler) (b : bool),
        addChunk now cid payload fa = Ok (fa', b)
        ∧ fa_frameSize fa' = fa_frameSize fa
        ∧ length (buffer fa') = length (buffer fa)
        ∧ (¬ rejects fa cid →
           (cid * chunkPayloadSize + bytesToCopy fa cid payload
            ≤ N.of_nat (length (buffer fa)))%N
           ∧ bytesToCopy fa cid payload
             = N.min (N.of_nat (length payload))
                 (N.of_nat (length (buffer fa)) - cid * chunkPayloadSize)).
Proof.
  intros Hr. pose proof (fa_reachable_length fa Hr) as L.
  split; [exact L |]. split.
  - unfold getJpegData, Uint8Array.slice0. rewrite length_take. lia.
  - intros now cid payload.
    destruct (addChunk_cases now cid payload fa) as [[Hrej E] | [Hn E]].
    + exists fa, false. repeat split; try done.
    + exists (stored now cid payload fa), (isComplete (stored now cid payload fa)).
      split; [exact E |]. split; [reflexivity |].
      split; [by apply stored_length |].
      intros _. split; [|reflexivity].
      apply bytesToCopy_fits. unfold rejects in Hn. lia.
Qed.

Lemma buffer_length_fixed_witness :
  fa_reachable (stored 20 0 [x01; x02; x03] (FrameAssembler_new 10 small_header))
  ∧ length (getJpegData
              (stored 20 0 [x01; x02; x03] (FrameAssembler_new 10 small_header)))
    = 5%nat.
Proof.
  assert (R : fa_reachable
                (stored 20 0 [x01; x02; x03] (FrameAssembler_new 10 small_header))).
  { apply (reach_add 20 0 [x01; x02; x03] (FrameAssembler_new 10 small_header) _ true).
    - apply reach_new.
    - vm_compute. reflexivity. }
  split; [exact R |].
  exact (proj1 (proj2 (buffer_length_fixed _ R))).
Defined.

(** C5. A chunk id that has been delivered to an assembler once is turned
    away on every later delivery, whatever was delivered in between and
    whatever payload the duplicate carries: addChunk returns false and the
    assembler (buffer, received set, last update) is the one from before the
    call. *)
Theorem duplicate_chunk_no_effect
    (fa fa1 fa2 : FrameAssembler) (t1 t2 : Z) (cid : N) (p1 p2 : list byte)
    (b : bool) (between : list Chunk) :
  addChunk t1 cid p1 fa = Ok (fa1, b) →
  addChunks between fa1 = Ok fa2 →
  addChunk t2 cid p2 fa2 = Ok (fa2, false).
Proof.
  intros E1 E2. apply addChunk_rejects.
  apply (addChunks_rejects between fa1 fa2 cid); [|exact E2].
  destruct (addChunk_cases t1 cid p1 fa) as [[Hrej E] | [Hn E]];
    rewrite E in E1; injection E1 as <- <-.
  - exact Hrej.
  - apply stored_rejects_same.
Qed.

Lemma duplicate_chunk_no_effect_witness :
  addChunk 30 0 [x09; x09; x09; x09]
    (stored 20 0 [x01; x02; x03] (FrameAssembler_new 10 open_header))
  = Ok (stored 20 0 [x01; x02; x03] (FrameAssembler_new 10 open_header), false).
Proof.
  apply (duplicate_chunk_no_effect (FrameAssembler_new 10 open_header)
           (stored 20 0 [x01; x02; x03] (FrameAssembler_new 10 open_header))
           (stored 20 0 [x01; x02; x03] (FrameAssembler_new 10 open_header))
           20 30 0 [x01; x02; x03] [x09; x09; x09; x09] false []).
  - vm_compute. reflexivity.
  - reflexivity.
Defined.

(* ===================================================================== *)
(* The contents of the buffer                                            *)
(* ===================================================================== *)

Lemma assembled_length (pl : N → list byte) (R : gset N) (size : N) :
  length (assembled pl R size) = N.to_nat size.
Proof. unfold assembled. by rewrite length_map, length_seq. Qed.

Lemma assembled_lookup (pl : N → list byte) (R : gset N) (size : N) (i : nat) :
  (i < N.to_nat size)%nat →
  assembled pl R size !! i = Some (frame_byte pl R i).
Proof.
  intros H. unfold assembled.
  change (map (frame_byte pl R)) with (fmap (M:=list) (frame_byte pl R)).
  rewrite list_lookup_fmap, lookup_seq_lt by exact H. reflexivity.
Qed.

Lemma chunk_of_index (i c : N) :
  (i / chunkPayloadSize = c ↔ c * chunkPayloadSize ≤ i < c * chunkPayloadSize + chunkPayloadSize)%N.
Proof.
  pose proof (N.div_mod i chunkPayloadSize ltac:(done)) as E.
  pose proof (N.mod_lt i chunkPayloadSize ltac:(done)) as L.
  set (q := (i / chunkPayloadSize)%N) in *.
  set (r := (i mod chunkPayloadSize)%N) in *.
  clearbody q r. unfold chunkPayloadSize in *. lia.
Qed.

Lemma offset_in_chunk (i c : N) :
  (i / chunkPayloadSize = c → i mod chunkPayloadSize = i - c * chunkPayloadSize)%N.
Proof.
  pose proof (N.div_mod i chunkPayloadSize ltac:(done)) as E.
  set (q := (i / chunkPayloadSize)%N) in *.
  set (r := (i mod chunkPayloadSize)%N) in *.
  clearbody q r. unfold chunkPayloadSize in *. lia.
Qed.

Lemma frame_byte_other (pl : N → list byte) (R : gset N) (c : N) (i : nat) :
  (N.of_nat i / chunkPayloadSize)%N ≠ c →
  frame_byte pl ({[c]} ∪ R) i = frame_byte pl R i.
Proof.
  intros H. unfold frame_byte. cbv zeta.
  repeat case_decide; try reflexivity; set_solver.
Qed.

(* Taking a fresh chunk in moves the buffer from the frame of the received
   set to the frame of the received set with this chunk. *)
Lemma stored_assembled (pl : N → list byte) (size : N) (now : Z) (c : N)
    (fa : FrameAssembler) :
  buffer fa = assembled pl (receivedChunks fa) size →
  c ∉ receivedChunks fa →
  (c * chunkPayloadSize < size)%N →
  (N.of_nat (length (pl c)) ≤ chunkPayloadSize)%N →
  buffer (stored now c (pl c) fa)
  = assembled pl (receivedChunks (stored now c (pl c) fa)) size.
Proof.
  intros Hbuf Hfresh Hoff Hpl.
  assert (Hlen : length (buffer fa) = N.to_nat size)
    by (rewrite Hbuf; apply assembled_length).
  assert (Hb : bytesToCopy fa c (pl c)
               = N.min (N.of_nat (length (pl c))) (size - c * chunkPayloadSize))
    by (unfold bytesToCopy; rewrite Hlen; f_equal; lia).
  unfold stored. cbn [buffer receivedChunks].
  set (off := N.to_nat (c * chunkPayloadSize)).
  set (n := N.to_nat (bytesToCopy fa c (pl c))).
  assert (Hn : (n ≤ length (pl c))%nat) by (subst n; lia).
  assert (Hfit : (off + n ≤ N.to_nat size)%nat) by (subst off n; lia).
  apply list_eq. intros i.
  destruct (Nat.lt_ge_cases i (N.to_nat size)) as [Hi | Hi].
  2:{ rewrite !lookup_ge_None_2; [reflexivity | |].
      - rewrite assembled_length. lia.
      - rewrite !length_app, !length_take, length_drop. lia. }
  rewrite assembled_lookup by exact Hi.
  assert (Hold : buffer fa !! i = Some (frame_byte pl (receivedChunks fa) i))
    by (rewrite Hbuf; by apply assembled_lookup).
  destruct (Nat.lt_ge_cases i off) as [Hlo | Hlo].
  - rewrite lookup_app_l by (rewrite length_take; lia).
    rewrite lookup_take_lt by exact Hlo. rewrite Hold. f_equal.
    symmetry. apply frame_byte_other.
    intros E. apply chunk_of_index in E. subst off. lia.
  - rewrite lookup_app_r by (rewrite length_take; lia).
    rewrite length_take.
    replace (off `min` length (buffer fa))%nat with off by lia.
    destruct (Nat.lt_ge_cases (i - off) n) as [Hmid | Hhi].
    + rewrite lookup_app_l by (rewrite length_take; lia).
      rewrite lookup_take_lt by exact Hmid.
      assert (E : (N.of_nat i / chunkPayloadSize)%N = c).
      { apply chunk_of_index. subst off. lia. }
      unfold frame_byte. cbv zeta. rewrite E.
      rewrite decide_True by set_solver.
      rewrite (offset_in_chunk _ _ E).
      replace (N.to_nat (N.of_nat i - c * chunkPayloadSize)) with (i - off)%nat
        by (subst off; lia).
      destruct (pl c !! (i - off)%nat) as [b|] eqn:Eb.
      * f_equal. symmetry. by apply nth_lookup_Some.
      * apply lookup_ge_None in Eb. lia.
    + rewrite lookup_app_r by (rewrite length_take; lia).
      rewrite length_take. replace (n `min` length (pl c))%nat with n by lia.
      rewrite lookup_drop.
      replace (off + n + (i - off - n))%nat with i by lia.
      rewrite Hold. f_equal.
      destruct (decide ((N.of_nat i / chunkPayloadSize)%N = c)) as [E | E].
      * unfold frame_byte. cbv zeta. rewrite E.
        rewrite decide_False by exact Hfresh.
        rewrite decide_True by set_solver.
        rewrite (offset_in_chunk _ _ E).
        symmetry. apply nth_overflow. subst off n. lia.
      * symmetry. by apply frame_byte_other.
Qed.

(* ===================================================================== *)
(* Sets of chunk ids                                                     *)
(* ===================================================================== *)

Lemma elem_of_chunk_ids (n c : N) : c ∈ chunk_ids n ↔ (c < n)%N.
Proof.
  unfold chunk_ids. rewrite list_elem_of_fmap. split.
  - intros (k & -> & Hk). apply elem_of_seq in Hk. lia.
  - intros H. exists (N.to_nat c). split; [lia |]. apply elem_of_seq. lia.
Qed.

Lemma NoDup_chunk_ids (n : N) : NoDup (chunk_ids n).
Proof.
  unfold chunk_ids. apply NoDup_fmap_2; [|apply NoDup_seq].
  intros x y. lia.
Qed.

Lemma length_chunk_ids (n : N) : length (chunk_ids n) = N.to_nat n.
Proof. unfold chunk_ids. by rewrite length_fmap, length_seq. Qed.

Lemma elem_of_all_chunks (n c : N) : c ∈ all_chunks n ↔ (c < n)%N.
Proof. unfold all_chunks. rewrite elem_of_list_to_set. apply elem_of_chunk_ids. Qed.

Lemma size_all_chunks (n : N) : size (all_chunks n) = N.to_nat n.
Proof.
  unfold all_chunks. rewrite size_list_to_set by apply NoDup_chunk_ids.
  unfold chunk_ids. by rewrite length_fmap, length_seq.
Qed.

(* A set of chunk ids below n has at most n members, and n of them only if
   it has them all. *)
Lemma size_below (n : N) (R : gset N) :
  (∀ c, c ∈ R → (c < n)%N) →
  (size R ≤ N.to_nat n)%nat ∧ (size R = N.to_nat n → R = all_chunks n).
Proof.
  intros H.
  assert (Hsub : R ⊆ all_chunks n).
  { intros c Hc. apply elem_of_all_chunks. by apply H. }
  split.
  - rewrite <- size_all_chunks. by apply subseteq_size.
  - intros E. apply set_subseteq_size_eq; [exact Hsub |].
    rewrite size_all_chunks. lia.
Qed.

Lemma size_add_fresh (c : N) (R : gset N) :
  c ∉ R → size ({[c]} ∪ R) = S (size R).
Proof.
  intros H. rewrite size_union by set_solver. by rewrite size_singleton.
Qed.

(* ===================================================================== *)
(* Reassembler.push                                                      *)
(* ===================================================================== *)

(* The assembler push works on: the table entry, or a new assembler. *)
Lemma push_eq (tNew tAdd : Z) (h : StreamInfo) (payload : list byte) (r : Reassembler) :
  push tNew tAdd h payload r
  = '(fa', complete) ← addChunk tAdd (chunkId h) payload
                         (default (FrameAssembler_new tNew h) (frames r !! frameId h));
    Ok (if complete : bool
        then ({| frames := delete (frameId h) (frames r); maxFrames := maxFrames r |},
              Some fa')
        else ({| frames := <[frameId h := fa']> (frames r); maxFrames := maxFrames r |},
              None)).
Proof.
  unfold push. destruct (frames r !! frameId h) as [fa|] eqn:E; cbn [default from_option id].
  - destruct (addChunk tAdd (chunkId h) payload fa) as [[fa' [|]]|e];
      cbn [mbind result_bind]; try reflexivity.
    by rewrite delete_insert_eq.
  - destruct (addChunk tAdd (chunkId h) payload (FrameAssembler_new tNew h))
      as [[fa' [|]]|e]; cbn [mbind result_bind]; try reflexivity.
    + by rewrite !delete_insert_eq.
    + by rewrite insert_insert_eq.
Qed.

(* push never throws; what it returns and what it leaves in the table. *)
Lemma push_cases (tNew tAdd : Z) (h : StreamInfo) (payload : list byte) (r : Reassembler) :
  let fa := default (FrameAssembler_new tNew h) (frames r !! frameId h) in
  let fa' := stored tAdd (chunkId h) payload fa in
  (rejects fa (chunkId h)
   ∧ push tNew tAdd h payload r
     = Ok ({| frames := <[frameId h := fa]> (frames r); maxFrames := maxFrames r |},
           None))
  ∨ (¬ rejects fa (chunkId h) ∧ isComplete fa' = false
     ∧ push tNew tAdd h payload r
       = Ok ({| frames := <[frameId h := fa']> (frames r); maxFrames := maxFrames r |},
             None))
  ∨ (¬ rejects fa (chunkId h) ∧ isComplete fa' = true
     ∧ push tNew tAdd h payload r
       = Ok ({| frames := delete (frameId h) (frames r); maxFrames := maxFrames r |},
             Some fa')).
Proof.
  intros fa fa'. rewrite push_eq. fold fa.
  destruct (addChunk_cases tAdd (chunkId h) payload fa) as [[Hr E] | [Hn E]];
    rewrite E; cbn [mbind result_bind].
  - left. by split.
  - fold fa'. destruct (isComplete fa') eqn:Ec.
    + right. right. by repeat split.
    + right. left. by repeat split.
Qed.

(* A delivery for an absent frame behaves as a delivery to the table in
   which the constructor has already put the new assembler. *)
Lemma deliver_absent (d : Delivery) (r : Reassembler) :
  frames r !! frameId (d_header d) = None →
  deliver d r
  = deliver d {| frames := <[frameId (d_header d) :=
                              FrameAssembler_new (d_tnew d) (d_header d)]> (frames r);
                 maxFrames := maxFrames r |}.
Proof.
  intros E. unfold deliver. rewrite !push_eq. cbn [frames maxFrames].
  rewrite E, lookup_insert_eq. cbn [default from_option id].
  destruct (addChunk _ _ _ _) as [[fa' [|]]|e]; cbn [mbind result_bind];
    try reflexivity.
  - rewrite delete_insert_eq. reflexivity.
  - rewrite insert_insert_eq. reflexivity.
Qed.

Lemma assembled_empty (pl : N → list byte) (size : N) :
  Uint8Array.alloc size = assembled pl ∅ size.
Proof.
  unfold Uint8Array.alloc, assembled. apply list_eq. intros i.
  destruct (Nat.lt_ge_cases i (N.to_nat size)) as [Hi | Hi].
  - rewrite lookup_replicate_2 by exact Hi.
    change (map (frame_byte pl ∅)) with (fmap (M:=list) (frame_byte pl ∅)).
    rewrite list_lookup_fmap, lookup_seq_lt by exact Hi.
    unfold frame_byte. cbn. rewrite decide_False by set_solver. reflexivity.
  - rewrite !lookup_ge_None_2; [reflexivity | |].
    + rewrite length_map, length_seq. lia.
    + rewrite length_replicate. lia.
Qed.

Section OneFrame.

(* A frame fid announced with n chunks and fsize bytes, and the payload of
   each of its chunks. *)
Variable pl : N → list byte.
Variables fid n fsize : N.

(* Every chunk of the frame starts inside the buffer. *)
Hypothesis frame_consistent : ((n - 1) * chunkPayloadSize < fsize)%N.

Lemma holds_new (m0 : gmap N FrameAssembler) (mf : N) (d : Delivery) :
  for_frame pl fid n fsize d →
  holds pl fid n fsize m0 mf ∅
    {| frames := <[fid := FrameAssembler_new (d_tnew d) (d_header d)]> m0;
       maxFrames := mf |}.
Proof.
  intros (Hf & Hn & Hs & _). eexists. split; [reflexivity |].
  unfold FrameAssembler_new. cbn. rewrite Hs, Hn.
  repeat split.
  - unfold Uint8Array.alloc. apply length_replicate.
  - intros _. apply assembled_empty.
Qed.

(* A delivery that does not complete the frame returns null and leaves
   the assembler, with the chunk if it was taken in, in the table. *)
Lemma deliver_open (m0 : gmap N FrameAssembler) (mf : N) (R : gset N)
    (r : Reassembler) (d : Delivery) :
  holds pl fid n fsize m0 mf R r →
  (∀ c, c ∈ R → (c < n)%N) →
  for_frame pl fid n fsize d →
  (size (list_to_set (valid_ids n [d]) ∪ R) < N.to_nat n)%nat →
  ∃ r', deliver d r = Ok (r', None)
        ∧ holds pl fid n fsize m0 mf (list_to_set (valid_ids n [d]) ∪ R) r'.
Proof.
  intros (fa & -> & Ht & Hfs & HR & Hlen & Hbuf) Hsub (Hf & _ & _ & Hp) Hsz.
  unfold deliver.
  pose proof (push_cases (d_tnew d) (d_tadd d) (d_header d) (d_payload d)
                {| frames := <[fid := fa]> m0; maxFrames := mf |}) as Hc.
  cbn [frames maxFrames] in Hc. rewrite Hf, lookup_insert_eq in Hc.
  cbn [default from_option id] in Hc. fold (d_cid d) in Hc.
  unfold valid_ids in *. cbn [fmap list_fmap] in *.
  destruct (decide (d_cid d < n)%N) as [Hlt | Hge].
  - rewrite filter_cons_True in * by exact Hlt.
    rewrite filter_nil in *. cbn [list_to_set foldr] in *.
    replace ({[d_cid d]} ∪ ∅ ∪ R) with ({[d_cid d]} ∪ R) in * by set_solver.
    destruct Hc as [[Hr E] | [(Hn & Hic & E) | (Hn & Hic & E)]].
    + (* a duplicate *)
      rewrite E, insert_insert_eq. eexists. split; [reflexivity |].
      assert (Hin : d_cid d ∈ R).
      { unfold rejects in Hr. rewrite Ht, HR, Hlen in Hr.
        destruct Hr as [? | [? | ?]]; [lia | done |].
        unfold chunkPayloadSize in *. lia. }
      assert (HRR : {[d_cid d]} ∪ R = R) by set_solver.
      rewrite HRR. by exists fa.
    + rewrite E, insert_insert_eq. eexists. split; [reflexivity |].
      exists (stored (d_tadd d) (d_cid d) (d_payload d) fa).
      repeat split; try done.
      * cbn. by rewrite HR.
      * by rewrite stored_length.
      * intros Hfit. rewrite (Hp Hlt). rewrite <- HR.
        apply (stored_assembled pl fsize (d_tadd d) (d_cid d) fa).
        -- rewrite HR. by apply Hbuf.
        -- unfold rejects in Hn. tauto.
        -- unfold chunkPayloadSize in *. lia.
        -- apply Hfit.
    + exfalso. unfold isComplete in Hic. cbn in Hic.
      apply N.eqb_eq in Hic. rewrite HR, Ht in Hic. lia.
  - rewrite filter_cons_False in * by exact Hge.
    rewrite filter_nil in *. cbn [list_to_set] in *.
    replace (∅ ∪ R) with R in * by set_solver.
    destruct Hc as [[Hr E] | [(Hn & _) | (Hn & _)]].
    + rewrite E, insert_insert_eq. eexists. split; [reflexivity |].
      by exists fa.
    + exfalso. apply Hn. left. rewrite Ht. lia.
    + exfalso. apply Hn. left. rewrite Ht. lia.
Qed.

Lemma valid_ids_lt (ds : list Delivery) (c : N) :
  c ∈ valid_ids n ds → (c < n)%N.
Proof. unfold valid_ids. rewrite list_elem_of_filter. tauto. Qed.

Lemma valid_ids_cons (d : Delivery) (ds : list Delivery) :
  valid_ids n (d :: ds) = valid_ids n [d] ++ valid_ids n ds.
Proof.
  unfold valid_ids. change (d :: ds) with ([d] ++ ds).
  by rewrite fmap_app, filter_app.
Qed.

Lemma valid_ids_app (ds1 ds2 : list Delivery) :
  valid_ids n (ds1 ++ ds2) = valid_ids n ds1 ++ valid_ids n ds2.
Proof. unfold valid_ids. by rewrite fmap_app, filter_app. Qed.

(* While the frame stays incomplete every push returns null. *)
Lemma run_open (m0 : gmap N FrameAssembler) (mf : N) (ds : list Delivery) :
  ∀ (R : gset N) (r : Reassembler),
    holds pl fid n fsize m0 mf R r →
    (∀ c, c ∈ R → (c < n)%N) →
    Forall (for_frame pl fid n fsize) ds →
    (size (list_to_set (valid_ids n ds) ∪ R) < N.to_nat n)%nat →
    ∃ r', pushAll ds r = Ok (r', replicate (length ds) None)
          ∧ holds pl fid n fsize m0 mf (list_to_set (valid_ids n ds) ∪ R) r'.
Proof.
  induction ds as [|d ds IH]; intros R r Hh Hsub Hall Hsz.
  - exists r. split; [reflexivity |].
    replace (list_to_set (valid_ids n []) ∪ R) with R by set_solver. exact Hh.
  - apply Forall_cons in Hall as [Hd Hall].
    rewrite valid_ids_cons, list_to_set_app_L in Hsz.
    set (R1 := list_to_set (valid_ids n [d]) ∪ R) in *.
    assert (Hsz1 : (size R1 < N.to_nat n)%nat).
    { eapply Nat.le_lt_trans; [|exact Hsz].
      apply subseteq_size. subst R1. set_solver. }
    destruct (deliver_open m0 mf R r d Hh Hsub Hd Hsz1) as (r1 & E1 & Hh1).
    assert (Hsub1 : ∀ c, c ∈ R1 → (c < n)%N).
    { intros c Hc. subst R1. apply elem_of_union in Hc as [Hc | Hc].
      - apply elem_of_list_to_set in Hc. by apply (valid_ids_lt [d]).
      - by apply Hsub. }
    assert (Hsz2 : (size (list_to_set (valid_ids n ds) ∪ R1) < N.to_nat n)%nat).
    { eapply Nat.le_lt_trans; [|exact Hsz].
      apply subseteq_size. subst R1. set_solver. }
    destruct (IH R1 r1 Hh1 Hsub1 Hall Hsz2) as (r2 & E2 & Hh2).
    exists r2. split.
    + cbn [pushAll]. rewrite E1. cbn [mbind result_bind]. rewrite E2.
      reflexivity.
    + rewrite valid_ids_cons, list_to_set_app_L.
      replace (list_to_set (valid_ids n [d]) ∪ list_to_set (valid_ids n ds) ∪ R)
        with (list_to_set (valid_ids n ds) ∪ R1) by (subst R1; set_solver).
      exact Hh2.
Qed.

(* The delivery that brings the last missing chunk returns the assembler
   and takes it out of the table. *)
Lemma deliver_last (m0 : gmap N FrameAssembler) (mf : N) (R : gset N)
    (r : Reassembler) (d : Delivery) :
  holds pl fid n fsize m0 mf R r →
  (∀ c, c ∈ R → (c < n)%N) →
  for_frame pl fid n fsize d →
  (d_cid d < n)%N →
  d_cid d ∉ R →
  S (size R) = N.to_nat n →
  m0 !! fid = None →
  ∃ fa, deliver d r = Ok ({| frames := m0; maxFrames := mf |}, Some fa)
        ∧ isComplete fa = true
        ∧ receivedChunks fa = all_chunks n
        ∧ length (getJpegData fa) = N.to_nat fsize
        ∧ (payloads_fit pl → getJpegData fa = assembled pl (all_chunks n) fsize).
Proof.
  intros (fa & -> & Ht & Hfs & HR & Hlen & Hbuf) Hsub (Hf & _ & _ & Hp)
    Hlt Hfresh Hsz Hm0.
  unfold deliver.
  pose proof (push_cases (d_tnew d) (d_tadd d) (d_header d) (d_payload d)
                {| frames := <[fid := fa]> m0; maxFrames := mf |}) as Hc.
  cbn [frames maxFrames] in Hc. rewrite Hf, lookup_insert_eq in Hc.
  cbn [default from_option id] in Hc. fold (d_cid d) in Hc.
  assert (Hacc : ¬ rejects fa (d_cid d)).
  { unfold rejects. rewrite Ht, HR, Hlen.
    intros [? | [? | ?]]; [lia | done |]. unfold chunkPayloadSize in *. lia. }
  assert (Hall : {[d_cid d]} ∪ R = all_chunks n).
  { apply size_below.
    - intros c Hin. apply elem_of_union in Hin as [Hin | Hin]; [|by apply Hsub].
      apply elem_of_singleton in Hin. by subst c.
    - rewrite size_add_fresh by exact Hfresh. exact Hsz. }
  destruct Hc as [[Hr _] | [(_ & Hic & _) | (_ & Hic & E)]]; [done | |].
  - exfalso. unfold isComplete in Hic. cbn in Hic.
    apply N.eqb_neq in Hic. rewrite HR, Ht, size_add_fresh in Hic by exact Hfresh.
    lia.
  - rewrite E, delete_insert_eq, delete_id by exact Hm0.
    eexists. split; [reflexivity |].
    pose proof (stored_length (d_tadd d) (d_cid d) (d_payload d) fa Hacc) as Hl.
    split; [exact Hic |]. split; [cbn; by rewrite HR |].
    unfold getJpegData, Uint8Array.slice0. cbn [fa_frameSize stored].
    rewrite Hfs. split.
    + rewrite length_take. lia.
    + intros Hfit. rewrite take_ge by lia.
      rewrite (Hp Hlt), <- Hall, <- HR.
      apply (stored_assembled pl fsize (d_tadd d) (d_cid d) fa).
      * rewrite HR. by apply Hbuf.
      * by rewrite HR.
      * unfold chunkPayloadSize in *. lia.
      * apply Hfit.
Qed.

Lemma valid_ids_one (d : Delivery) : (d_cid d < n)%N → valid_ids n [d] = [d_cid d].
Proof.
  intros H. unfold valid_ids. cbn [fmap list_fmap].
  by rewrite filter_cons_True, filter_nil.
Qed.

(* From an assembler that has received nothing: the pushes before the last
   missing chunk return null, that chunk's push returns the assembler. The
   deliveries pre may repeat chunks and may carry chunk ids that are not
   of the frame. *)
Lemma frame_completes_from (m0 : gmap N FrameAssembler) (mf : N)
    (r0 : Reassembler) (pre : list Delivery) (d : Delivery) :
  holds pl fid n fsize m0 mf ∅ r0 →
  m0 !! fid = None →
  Forall (for_frame pl fid n fsize) (pre ++ [d]) →
  (d_cid d < n)%N →
  valid_ids n (pre ++ [d]) ≡ₚ chunk_ids n →
  ∃ fa, pushAll (pre ++ [d]) r0
        = Ok ({| frames := m0; maxFrames := mf |},
              replicate (length pre) None ++ [Some fa])
        ∧ isComplete fa = true
        ∧ receivedChunks fa = all_chunks n
        ∧ length (getJpegData fa) = N.to_nat fsize
        ∧ (payloads_fit pl → getJpegData fa = assembled pl (all_chunks n) fsize).
Proof.
  intros Hh Hm0 Hall Hlt Hperm.
  apply Forall_app in Hall as [Hpre Hd]. apply Forall_inv in Hd.
  rewrite valid_ids_app, (valid_ids_one d Hlt) in Hperm.
  assert (Hnd : NoDup (valid_ids n pre ++ [d_cid d]))
    by (rewrite Hperm; apply NoDup_chunk_ids).
  apply NoDup_app in Hnd as (Hnd1 & Hdisj & _).
  assert (Hlen : (length (valid_ids n pre) + 1 = N.to_nat n)%nat).
  { apply Permutation_length in Hperm. rewrite length_app in Hperm.
    unfold chunk_ids in Hperm. rewrite length_fmap, length_seq in Hperm.
    exact Hperm. }
  set (R := list_to_set (valid_ids n pre) ∪ (∅ : gset N)).
  assert (HszR : size R = length (valid_ids n pre)).
  { subst R. rewrite (right_id_L ∅ (∪)). by apply size_list_to_set. }
  assert (HsubR : ∀ c, c ∈ R → (c < n)%N).
  { intros c Hin. subst R. rewrite (right_id_L ∅ (∪)) in Hin.
    apply elem_of_list_to_set in Hin. by apply (valid_ids_lt pre). }
  assert (Hfresh : d_cid d ∉ R).
  { subst R. rewrite (right_id_L ∅ (∪)). intros Hin.
    apply elem_of_list_to_set in Hin. apply (Hdisj _ Hin). by left. }
  destruct (run_open m0 mf pre ∅ r0 Hh) as (r1 & E1 & Hh1);
    [set_solver | exact Hpre | fold R; lia |].
  fold R in Hh1.
  destruct (deliver_last m0 mf R r1 d Hh1 HsubR Hd Hlt Hfresh ltac:(lia) Hm0)
    as (fa & E2 & Hfa).
  exists fa. split; [|exact Hfa].
  clear - E1 E2. revert r0 E1.
  induction pre as [|x pre IH]; intros r0 E1.
  - cbn in E1. injection E1 as ->. cbn [app pushAll replicate length].
    rewrite E2. reflexivity.
  - cbn [pushAll length replicate] in E1.
    destruct (deliver x r0) as [[rx ox]|e] eqn:Ex; [|discriminate].
    cbn [mbind result_bind] in E1.
    destruct (pushAll pre rx) as [[ry oy]|e] eqn:Ey; [|discriminate].
    cbn [mbind result_bind] in E1. injection E1 as -> -> ->.
    cbn [app pushAll length replicate]. rewrite Ex. cbn [mbind result_bind].
    rewrite (IH rx Ey). reflexivity.
Qed.

Lemma pushAll_absent (x : Delivery) (rest : list Delivery) (r : Reassembler) :
  frames r !! frameId (d_header x) = None →
  pushAll (x :: rest) r
  = pushAll (x :: rest)
      {| frames := <[frameId (d_header x) :=
                      FrameAssembler_new (d_tnew x) (d_header x)]> (frames r);
         maxFrames := maxFrames r |}.
Proof. intros E. cbn [pushAll]. by rewrite deliver_absent. Qed.

(* The same for a frame that is not yet in the table: the first delivery
   creates its assembler. The table is left as it was found. *)
Lemma frame_completes (r : Reassembler) (pre : list Delivery) (d : Delivery) :
  frames r !! fid = None →
  Forall (for_frame pl fid n fsize) (pre ++ [d]) →
  (d_cid d < n)%N →
  valid_ids n (pre ++ [d]) ≡ₚ chunk_ids n →
  ∃ fa, pushAll (pre ++ [d]) r
        = Ok (r, replicate (length pre) None ++ [Some fa])
        ∧ isComplete fa = true
        ∧ receivedChunks fa = all_chunks n
        ∧ length (getJpegData fa) = N.to_nat fsize
        ∧ (payloads_fit pl → getJpegData fa = assembled pl (all_chunks n) fsize).
Proof.
  intros Habs Hall Hlt Hperm.
  destruct (pre ++ [d]) as [|x rest] eqn:Eds.
  { by destruct pre. }
  assert (Hx : for_frame pl fid n fsize x) by (by apply Forall_cons in Hall as [? _]).
  assert (Hfx : frameId (d_header x) = fid) by apply Hx.
  rewrite pushAll_absent by (by rewrite Hfx).
  rewrite Hfx, <- Eds. rewrite <- Eds in Hall, Hperm.
  destruct (frame_completes_from (frames r) (maxFrames r) _ pre d
              (holds_new (frames r) (maxFrames r) x Hx) Habs Hall Hlt Hperm)
    as (fa & E & Hfa).
  exists fa. split; [|exact Hfa]. rewrite E. by destruct r.
Qed.

End OneFrame.

(* What one push returns and what it does to the table. *)
Lemma push_take (tNew tAdd : Z) (h : StreamInfo) (payload : list byte)
    (r r' : Reassembler) (o : option FrameAssembler) :
  push tNew tAdd h payload r = Ok (r', o) →
  match o with
  | Some f =>
      isComplete f = true
      ∧ frames r' = delete (frameId h) (frames r)
      ∧ frames r' !! frameId h = None
  | None => ∃ f, frames r' !! frameId h = Some f
  end.
Proof.
  intros E.
  destruct (push_cases tNew tAdd h payload r)
    as [[_ E'] | [(_ & _ & E') | (_ & Hc & E')]];
    rewrite E' in E; injection E as <- <-; cbn [frames].
  - eexists. apply lookup_insert_eq.
  - eexists. apply lookup_insert_eq.
  - split; [exact Hc |]. split; [reflexivity | apply lookup_delete_eq].
Qed.

Lemma push_total (tNew tAdd : Z) (h : StreamInfo) (payload : list byte) (r : Reassembler) :
  ∃ r' o, push tNew tAdd h payload r = Ok (r', o).
Proof.
  destruct (push_cases tNew tAdd h payload r)
    as [[_ E'] | [(_ & _ & E') | (_ & Hc & E')]]; rewrite E'; eauto.
Qed.

Lemma filter_all {A : Type} (P : A → Prop) `{∀ x, Decision (P x)} (l : list A) :
  Forall P l → filter P l = l.
Proof.
  induction 1 as [|x l Hx _ IH]; [reflexivity |].
  rewrite filter_cons_True by exact Hx. by rewrite IH.
Qed.

Lemma valid_ids_all (n : N) (ds : list Delivery) :
  d_cid <$> ds ≡ₚ chunk_ids n → valid_ids n ds = d_cid <$> ds.
Proof.
  intros Hp. unfold valid_ids. apply filter_all.
  apply Forall_forall. intros c Hc. rewrite Hp in Hc.
  by apply elem_of_chunk_ids.
Qed.

Lemma split_last {A : Type} (l : list A) :
  l ≠ [] → ∃ pre x, l = pre ++ [x] ∧ length pre = (length l - 1)%nat.
Proof.
  induction l as [|a l IH] using rev_ind; [done |]. intros _.
  exists l, a. split; [reflexivity |]. rewrite length_app. simpl. lia.
Qed.

(* The frame of n distinct chunks, delivered in any order. *)
Lemma frame_any_order (pl : N → list byte) (fid n fsize : N) (r : Reassembler)
    (ds : list Delivery) :
  (0 < n)%N →
  ((n - 1) * chunkPayloadSize < fsize)%N →
  frames r !! fid = None →
  Forall (for_frame pl fid n fsize) ds →
  d_cid <$> ds ≡ₚ chunk_ids n →
  ∃ fa, pushAll ds r = Ok (r, replicate (length ds - 1) None ++ [Some fa])
        ∧ isComplete fa = true
        ∧ receivedChunks fa = all_chunks n
        ∧ length (getJpegData fa) = N.to_nat fsize
        ∧ (payloads_fit pl → getJpegData fa = assembled pl (all_chunks n) fsize).
Proof.
  intros Hn Hcons Habs Hall Hperm.
  assert (Hne : ds ≠ []).
  { intros ->. apply Permutation_length in Hperm.
    rewrite length_chunk_ids in Hperm. simpl in Hperm. lia. }
  destruct (split_last ds Hne) as (pre & d & -> & Hlen).
  rewrite <- Hlen.
  assert (Hlt : (d_cid d < n)%N).
  { apply elem_of_chunk_ids. rewrite <- Hperm, fmap_app.
    apply elem_of_app. right. cbn. by left. }
  apply (frame_completes pl fid n fsize Hcons r pre d Habs Hall Hlt).
  by rewrite (valid_ids_all n _ Hperm).
Qed.

(** C1 (as the client has it). Take a frame announced with n > 0 chunks and
    fsize bytes such that its last chunk starts inside the buffer
    ((n-1) * chunkPayloadSize < fsize), and a table without this frame. When
    its n distinct chunks are pushed, in any order, every push but the last
    returns null and the last returns the assembler, which has received all
    of 0..n-1; the table is then again the one from before the frame. If
    moreover no chunk payload is longer than chunkPayloadSize, the bytes
    returned are the same for every order: byte i is byte
    (i mod chunkPayloadSize) of the payload of chunk (i / chunkPayloadSize),
    or zero beyond that payload. For every push: a push that returns an
    assembler has removed it from the table and the assembler is complete,
    and a push that returns null leaves an assembler for the frame in the
    table. *)
Theorem frame_emitted_once (pl : N → list byte) (fid n fsize : N) (r : Reassembler)
    (ds ds' : list Delivery) :
  (0 < n)%N →
  ((n - 1) * chunkPayloadSize < fsize)%N →
  frames r !! fid = None →
  Forall (for_frame pl fid n fsize) ds → d_cid <$> ds ≡ₚ chunk_ids n →
  Forall (for_frame pl fid n fsize) ds' → d_cid <$> ds' ≡ₚ chunk_ids n →
  (∃ fa fa',
     pushAll ds r = Ok (r, replicate (length ds - 1) None ++ [Some fa])
     ∧ pushAll ds' r = Ok (r, replicate (length ds' - 1) None ++ [Some fa'])
     ∧ receivedChunks fa = all_chunks n
     ∧ receivedChunks fa' = all_chunks n
     ∧ (payloads_fit pl →
        getJpegData fa = assembled pl (all_chunks n) fsize
        ∧ getJpegData fa' = getJpegData fa))
  ∧ (∀ tNew tAdd h payload r0 r1 o,
       push tNew tAdd h payload r0 = Ok (r1, o) →
       match o with
       | Some f =>
           isComplete f = true
           ∧ frames r1 = delete (frameId h) (frames r0)
           ∧ frames r1 !! frameId h = None
       | None => ∃ f, frames r1 !! frameId h = Some f
       end).
Proof.
  intros Hn Hcons Habs Hall Hperm Hall' Hperm'.
  split; [|intros; by eapply push_take].
  destruct (frame_any_order pl fid n fsize r ds Hn Hcons Habs Hall Hperm)
    as (fa & E & _ & HR & _ & Hj).
  destruct (frame_any_order pl fid n fsize r ds' Hn Hcons Habs Hall' Hperm')
    as (fa' & E' & _ & HR' & _ & Hj').
  exists fa, fa'. repeat split; try done.
  - by apply Hj.
  - rewrite Hj, Hj'; done.
Qed.

Lemma frame_emitted_once_witness :
  ∃ fa fa',
    pushAll [mk_delivery 5 7 0 2 32770 [x01]; mk_delivery 6 7 1 2 32770 [x02]]
      Reassembler_default
    = Ok (Reassembler_default, [None; Some fa])
    ∧ pushAll [mk_delivery 5 7 1 2 32770 [x02]; mk_delivery 6 7 0 2 32770 [x01]]
        Reassembler_default
      = Ok (Reassembler_default, [None; Some fa'])
    ∧ getJpegData fa' = getJpegData fa.
Proof.
  destruct (frame_emitted_once one_byte_payloads 7 2 32770 Reassembler_default
              [mk_delivery 5 7 0 2 32770 [x01]; mk_delivery 6 7 1 2 32770 [x02]]
              [mk_delivery 5 7 1 2 32770 [x02]; mk_delivery 6 7 0 2 32770 [x01]])
    as [(fa & fa' & E & E' & _ & _ & Hj) _].
  - reflexivity.
  - reflexivity.
  - reflexivity.
  - repeat constructor; simpl; try reflexivity; intros _; reflexivity.
  - vm_compute. reflexivity.
  - repeat constructor; simpl; try reflexivity; intros _; reflexivity.
  - vm_compute. apply perm_swap.
  - exists fa, fa'. split; [exact E |]. split; [exact E' |].
    apply Hj. intros c. unfold one_byte_payloads, chunkPayloadSize.
    destruct (c =? 0)%N; simpl; lia.
Defined.

(** C1 (as stated) fails in two ways. A frame announced with 2 chunks and 1
    byte never completes: chunk 0 is taken in, chunk 1 is turned away because
    its offset lies outside the buffer, and both pushes return null. And for a
    frame of 2 chunks and 32770 bytes whose chunk 0 carries 32769 bytes, both
    arrival orders emit the frame at the second push, but the byte at index
    32768 of the emitted buffer is the one of chunk 1 when the chunks arrive
    as 0, 1 and the one of chunk 0 when they arrive as 1, 0. *)
Lemma completion_depends_on_sizes :
  emissions (pushAll [mk_delivery 5 7 0 2 1 [x07]; mk_delivery 6 7 1 2 1 [x09]]
               Reassembler_default)
  = [false; false]
  ∧ emissions (pushAll [mk_delivery 5 7 0 2 32770 long_payload;
                        mk_delivery 6 7 1 2 32770 [x02]] Reassembler_default)
    = [false; true]
  ∧ emissions (pushAll [mk_delivery 5 7 1 2 32770 [x02];
                        mk_delivery 6 7 0 2 32770 long_payload] Reassembler_default)
    = [false; true]
  ∧ last_emitted (pushAll [mk_delivery 5 7 0 2 32770 long_payload;
                           mk_delivery 6 7 1 2 32770 [x02]] Reassembler_default)
    ≫= byte_at 32768 = Some x02
  ∧ last_emitted (pushAll [mk_delivery 5 7 1 2 32770 [x02];
                           mk_delivery 6 7 0 2 32770 long_payload] Reassembler_default)
    ≫= byte_at 32768 = Some x01.
Proof. repeat split; vm_compute; reflexivity. Qed.



(* ===================================================================== *)
(* Reassembler.gc                                                        *)
(* ===================================================================== *)

Lemma elem_of_gc_toDelete (now maxAgeMs : Z) (fs : gmap N FrameAssembler) (k : N) :
  k ∈ gc_toDelete now maxAgeMs fs ↔ ∃ fa, fs !! k = Some fa ∧ stale now maxAgeMs fa.
Proof.
  unfold gc_toDelete, stale. rewrite list_elem_of_omap. split.
  - intros ([k' fa] & Hin & Hsome). apply elem_of_map_to_list in Hin.
    cbn in Hsome. destruct (Z.ltb_spec maxAgeMs (now - lastUpdate fa)); [|discriminate].
    injection Hsome as ->. eauto.
  - intros (fa & Hk & Hold). exists (k, fa). split.
    + by apply elem_of_map_to_list.
    + cbn. destruct (Z.ltb_spec maxAgeMs (now - lastUpdate fa)); [reflexivity | lia].
Qed.

Lemma lookup_foldl_delete (l : list N) (fs : gmap N FrameAssembler) (k : N) :
  foldl (λ m fid, delete fid m) fs l !! k
  = if decide (k ∈ l) then None else fs !! k.
Proof.
  revert fs. induction l as [|x l IH]; intros fs; cbn [foldl].
  - rewrite decide_False by apply not_elem_of_nil. reflexivity.
  - rewrite IH. destruct (decide (k ∈ l)) as [Hin | Hin].
    + rewrite decide_True by (by right). reflexivity.
    + destruct (decide (k = x)) as [-> | Hne].
      * rewrite decide_True by (by left). apply lookup_delete_eq.
      * rewrite decide_False by (rewrite elem_of_cons; tauto).
        by apply lookup_delete_ne.
Qed.

(* The pass of gc over a table that is over capacity. *)
Lemma gc_pass (now maxAgeMs : Z) (fs : gmap N FrameAssembler) :
  foldl (λ m fid, delete fid m) fs (gc_toDelete now maxAgeMs fs)
  = without_stale now maxAgeMs fs.
Proof.
  apply map_eq. intros k. rewrite lookup_foldl_delete.
  unfold without_stale. rewrite map_lookup_filter.
  destruct (decide (k ∈ gc_toDelete now maxAgeMs fs)) as [Hin | Hin].
  - apply elem_of_gc_toDelete in Hin as (fa & -> & Hold). cbn.
    rewrite option_guard_False by tauto. reflexivity.
  - destruct (fs !! k) as [fa|] eqn:E; cbn; [|reflexivity].
    rewrite option_guard_True; [reflexivity |].
    intros Hold. apply Hin. apply elem_of_gc_toDelete. eauto.
Qed.

Lemma gc_lookup (now maxAgeMs : Z) (r : Reassembler) (k : N) :
  frames (gc now maxAgeMs r) !! k
  = fa ← frames r !! k;
    if decide ((maxFrames r < N.of_nat (size (frames r)))%N ∧ stale now maxAgeMs fa)
    then None else Some fa.
Proof.
  unfold gc.
  destruct (N.leb_spec (N.of_nat (size (frames r))) (maxFrames r)) as [Hle | Hgt].
  - destruct (frames r !! k) as [fa|]; cbn; [|reflexivity].
    rewrite decide_False by lia. reflexivity.
  - cbn [frames]. rewrite gc_pass. unfold without_stale.
    rewrite map_lookup_filter.
    destruct (frames r !! k) as [fa|]; cbn; [|reflexivity].
    destruct (decide (stale now maxAgeMs fa)) as [Hold | Hyoung].
    + rewrite option_guard_False by tauto. rewrite decide_True by tauto.
      reflexivity.
    + rewrite option_guard_True by exact Hyoung.
      rewrite decide_False by tauto. reflexivity.
Qed.

(** C7. gc returns the reassembler unchanged when the table holds at most
    maxFrames assemblers; when it holds more, gc leaves exactly the
    assemblers that are not stale, i.e. it removes those and only those whose
    last update lies more than maxAgeMs before now, and keeps maxFrames. In
    every state an assembler whose age is at most maxAgeMs survives gc, and an
    assembler that gc removed was stale in a table over capacity. *)
Theorem gc_evicts_stale_over_capacity (now maxAgeMs : Z) (r : Reassembler) :
  gc now maxAgeMs r
  = (if decide (N.of_nat (size (frames r)) ≤ maxFrames r)%N
     then r
     else {| frames := without_stale now maxAgeMs (frames r);
             maxFrames := maxFrames r |})
  ∧ (∀ k fa, frames r !! k = Some fa →
       (now - lastUpdate fa ≤ maxAgeMs)%Z →
       frames (gc now maxAgeMs r) !! k = Some fa)
  ∧ (∀ k fa, frames r !! k = Some fa →
       frames (gc now maxAgeMs r) !! k = None →
       (maxFrames r < N.of_nat (size (frames r)))%N
       ∧ (maxAgeMs < now - lastUpdate fa)%Z).
Proof.
  split; [|split].
  - unfold gc.
    destruct (N.leb_spec (N.of_nat (size (frames r))) (maxFrames r)) as [Hle | Hgt].
    + rewrite decide_True by exact Hle. reflexivity.
    + rewrite decide_False by lia. by rewrite gc_pass.
  - intros k fa Hk Hyoung. rewrite gc_lookup, Hk. cbn.
    rewrite decide_False; [reflexivity |]. unfold stale. lia.
  - intros k fa Hk Hgone. rewrite gc_lookup, Hk in Hgone. cbn in Hgone.
    destruct (decide _) as [[Hcap Hold] | _]; [|discriminate].
    split; [exact Hcap | exact Hold].
Qed.

Lemma gc_evicts_stale_over_capacity_witness :
  frames (gc 2000 1000 two_frames) !! 2%N
  = Some (FrameAssembler_new 1500 (mk_header 2 0 2 5 []))
  ∧ frames (gc 2000 1000 two_frames) !! 1%N = None.
Proof.
  split.
  - apply (proj1 (proj2 (gc_evicts_stale_over_capacity 2000 1000 two_frames))).
    + vm_compute. reflexivity.
    + vm_compute. discriminate.
  - vm_compute. reflexivity.
Defined.

(* ===================================================================== *)
(* A frame announced with zero chunks                                    *)
(* ===================================================================== *)

Lemma push_other (tNew tAdd : Z) (h : StreamInfo) (payload : list byte)
    (r r' : Reassembler) (o : option FrameAssembler) (k : N) :
  push tNew tAdd h payload r = Ok (r', o) →
  k ≠ frameId h →
  frames r' !! k = frames r !! k.
Proof.
  intros E Hne.
  destruct (push_cases tNew tAdd h payload r)
    as [[_ E'] | [(_ & _ & E') | (_ & _ & E')]];
    rewrite E' in E; injection E as <- <-; cbn [frames].
  - by apply lookup_insert_ne.
  - by apply lookup_insert_ne.
  - by apply lookup_delete_ne.
Qed.

Lemma zero_total_rejects (fa : FrameAssembler) (now : Z) (cid : N) (payload : list byte) :
  totalChunks fa = 0%N → addChunk now cid payload fa = Ok (fa, false).
Proof.
  intros H. apply addChunk_rejects. left. rewrite H. lia.
Qed.

(* Once the table holds an assembler with totalChunks = 0 for a frame, every
   push for that frame returns null and the assembler stays as it is. *)
Lemma zero_total_stays (fid : N) (fa0 : FrameAssembler) (ds : list Delivery) :
  totalChunks fa0 = 0%N →
  ∀ r : Reassembler,
    frames r !! fid = Some fa0 →
    ∃ r' os,
      pushAll ds r = Ok (r', os)
      ∧ frames r' !! fid = Some fa0
      ∧ maxFrames r' = maxFrames r
      ∧ ∀ i d, ds !! i = Some d → frameId (d_header d) = fid → os !! i = Some None.
Proof.
  intros Hz. induction ds as [|d ds IH]; intros r Hr.
  - exists r, []. split; [reflexivity |]. split; [exact Hr |].
    split; [reflexivity |]. intros i d Hi. by destruct i.
  - assert (∃ r1 o, deliver d r = Ok (r1, o)
                    ∧ frames r1 !! fid = Some fa0
                    ∧ maxFrames r1 = maxFrames r
                    ∧ (frameId (d_header d) = fid → o = None))
      as (r1 & o & E1 & Hr1 & Hm1 & Ho).
    { unfold deliver. destruct (decide (frameId (d_header d) = fid)) as [Hf | Hf].
      - rewrite push_eq, Hf, Hr. cbn [default from_option id].
        rewrite zero_total_rejects by exact Hz. cbn [mbind result_bind].
        eexists _, _. split; [reflexivity |]. cbn [frames maxFrames].
        rewrite lookup_insert_eq. done.
      - destruct (push_total (d_tnew d) (d_tadd d) (d_header d) (d_payload d) r)
          as (r1 & o & E).
        exists r1, o. split; [exact E |]. split; [|split; [|done]].
        + rewrite (push_other _ _ _ _ _ _ _ fid E) by done. exact Hr.
        + destruct (push_cases (d_tnew d) (d_tadd d) (d_header d) (d_payload d) r)
            as [[_ E'] | [(_ & _ & E') | (_ & _ & E')]];
            rewrite E' in E; by injection E as <- <-. }
    destruct (IH r1 Hr1) as (r2 & os & E2 & Hr2 & Hm2 & Hos).
    exists r2, (o :: os). split.
    + cbn [pushAll]. rewrite E1. cbn [mbind result_bind]. rewrite E2. reflexivity.
    + split; [exact Hr2 |]. split; [congruence |].
      intros [|i] d' Hi Hf; cbn in Hi |- *.
      * injection Hi as <-. by rewrite (Ho Hf).
      * by apply (Hos i d').
Qed.

(** C10. A frame whose first header announces chunksTotal = 0, pushed into a
    table that does not hold it: the assembler the constructor builds is
    complete from the start (0 received chunks, 0 in total), yet addChunk
    turns every chunk away and returns false. So the first push and every
    later push for this frame id return null, whatever else is pushed in
    between, and the table keeps the assembler exactly as the constructor
    built it. gc removes it when, and only when, the table is over capacity
    and the constructor's clock reading lies more than maxAgeMs back. *)
Theorem zero_chunk_frame_never_emitted
    (r : Reassembler) (d0 : Delivery) (ds : list Delivery) :
  chunksTotal (d_header d0) = 0%N →
  frames r !! frameId (d_header d0) = None →
  let fid := frameId (d_header d0) in
  let fa0 := FrameAssembler_new (d_tnew d0) (d_header d0) in
  isComplete fa0 = true
  ∧ (∀ now cid payload, addChunk now cid payload fa0 = Ok (fa0, false))
  ∧ ∃ r' os,
      pushAll (d0 :: ds) r = Ok (r', os)
      ∧ frames r' !! fid = Some fa0
      ∧ (∀ i d, (d0 :: ds) !! i = Some d → frameId (d_header d) = fid →
           os !! i = Some None)
      ∧ (∀ now maxAgeMs,
           frames (gc now maxAgeMs r') !! fid
           = if decide ((maxFrames r' < N.of_nat (size (frames r')))%N
                        ∧ (maxAgeMs < now - d_tnew d0)%Z)
             then None else Some fa0).
Proof.
  intros Hz Habs fid fa0.
  assert (Ht : totalChunks fa0 = 0%N) by exact Hz.
  split.
  { unfold isComplete. rewrite Ht. subst fa0. cbn [receivedChunks FrameAssembler_new].
    by rewrite size_empty. }
  split; [intros; by apply zero_total_rejects |].
  pose (r0 := {| frames := <[fid := fa0]> (frames r); maxFrames := maxFrames r |}).
  destruct (zero_total_stays fid fa0 (d0 :: ds) Ht r0) as (r' & os & E & Hr' & _ & Hos).
  { subst r0. cbn [frames]. apply lookup_insert_eq. }
  exists r', os. split.
  - rewrite pushAll_absent by exact Habs. exact E.
  - split; [exact Hr' |]. split; [exact Hos |].
    intros now maxAgeMs. rewrite gc_lookup, Hr'. cbn [mbind option_bind].
    unfold stale. reflexivity.
Qed.

Lemma zero_chunk_frame_never_emitted_witness :
  ∃ r' os,
    pushAll [mk_delivery 10 9 0 0 100 [x01];
             mk_delivery 11 9 0 0 100 [x01];
             mk_delivery 12 9 1 0 100 [x02]] Reassembler_default
    = Ok (r', os)
    ∧ frames r' !! 9%N
      = Some (FrameAssembler_new 10 (mk_header 9 0 0 100 [x01]))
    ∧ os !! 2%nat = Some None.
Proof.
  destruct (zero_chunk_frame_never_emitted Reassembler_default
              (mk_delivery 10 9 0 0 100 [x01])
              [mk_delivery 11 9 0 0 100 [x01]; mk_delivery 12 9 1 0 100 [x02]])
    as (_ & _ & r' & os & E & Hr' & Hos & _).
  - reflexivity.
  - reflexivity.
  - exists r', os. split; [exact E |]. split; [exact Hr' |].
    apply (Hos 2%nat (mk_delivery 12 9 1 0 100 [x02])); reflexivity.
Defined.

(* ===================================================================== *)
(* The frames-per-second counter                                         *)
(* ===================================================================== *)

Lemma rate_value (a b : Z) :
  (0 < b)%Z → (inject_Z a / inject_Z b == a # Z.to_pos b)%Q.
Proof.
  intros Hb. destruct b as [|p|p]; try lia.
  rewrite <- Qmake_Qdiv. reflexivity.
Qed.

(** C8. The counter update at time now. On the first call (count 0 and no
    window start stored) the window start becomes now, the count becomes 1
    and no rate is returned. In general the window start the call works with
    is the stored one, or now when none is stored; the count is incremented;
    if now minus that window start is at least 1000, the call returns the
    rate (count + 1) * 1000 / (now - window start), counting the current
    event, and leaves count 0 and window start now; otherwise it returns
    nothing and leaves the incremented count with that window start. *)
Theorem fpsRecord_window (now : Z) (c : FpsCounter) :
  fpsRecord now fpsCounter_init = ({| count := 1; lastTime := now |}, None)
  ∧ (is_Some (fpsRecord now c).2 ↔ (1000 ≤ now - window_start now c)%Z)
  ∧ if decide (1000 ≤ now - window_start now c)%Z
    then ∃ rate : Q,
           fpsRecord now c = ({| count := 0; lastTime := now |}, Some rate)
           ∧ (rate == (Z.of_N (count c + 1) * 1000) # Z.to_pos (now - window_start now c))%Q
    else fpsRecord now c
         = ({| count := count c + 1; lastTime := window_start now c |}, None).
Proof.
  assert (Hgen :
    if decide (1000 ≤ now - window_start now c)%Z
    then ∃ rate : Q,
           fpsRecord now c = ({| count := 0; lastTime := now |}, Some rate)
           ∧ (rate == (Z.of_N (count c + 1) * 1000) # Z.to_pos (now - window_start now c))%Q
    else fpsRecord now c
         = ({| count := count c + 1; lastTime := window_start now c |}, None)).
  { unfold fpsRecord, window_start.
    destruct (Z.eqb_spec (lastTime c) 0) as [E0 | E0].
    - rewrite (decide_True (P := (lastTime c = 0)%Z)) by exact E0.
      cbn [count lastTime].
      destruct (Z.leb_spec 1000 (now - now)) as [Hle | Hlt]; [lia |].
      rewrite decide_False by lia. reflexivity.
    - rewrite (decide_False (P := (lastTime c = 0)%Z)) by exact E0.
      cbn [count lastTime].
      destruct (Z.leb_spec 1000 (now - lastTime c)) as [Hle | Hlt].
      + rewrite decide_True by exact Hle. eexists. split; [reflexivity |].
        apply rate_value. lia.
      + rewrite decide_False by lia. reflexivity. }
  split; [|split; [|exact Hgen]].
  - unfold fpsRecord, fpsCounter_init. cbn [count lastTime Z.eqb].
    destruct (Z.leb_spec 1000 (now - now)) as [Hle | Hlt]; [lia | reflexivity].
  - destruct (decide (1000 ≤ now - window_start now c)%Z) as [Hle | Hlt].
    + destruct Hgen as (rate & -> & _). cbn. split; [done | by eexists].
    + rewrite Hgen. cbn. split; [intros [? ?]; discriminate | lia].
Qed.

(* ===================================================================== *)
(* The receive path                                                      *)
(* ===================================================================== *)





(* ===================================================================== *)
(* Further properties of the assembler                                   *)
(* ===================================================================== *)

Lemma fa_reachable_received (fa : FrameAssembler) :
  fa_reachable fa →
  ∀ c, c ∈ receivedChunks fa →
       (c < totalChunks fa)%N
       ∧ (c * chunkPayloadSize < N.of_nat (length (buffer fa)))%N.
Proof.
  induction 1 as [now header | now cid payload fa fa' b _ IH E].
  - intros c Hc. cbn in Hc. set_solver.
  - destruct (addChunk_cases now cid payload fa) as [[_ Ea] | [Hn Ea]];
      rewrite Ea in E; injection E as <- <-; [exact IH |].
    intros c Hc. rewrite stored_length by exact Hn.
    cbn [receivedChunks totalChunks stored] in *.
    apply elem_of_union in Hc as [Hc | Hc]; [|by apply IH].
    apply elem_of_singleton in Hc. subst c. unfold rejects in Hn. lia.
Qed.

(** X1. In every assembler built by the constructor and changed by addChunk
    only, each received chunk id is below totalChunks and has its offset
    inside the buffer, and the received set has at most totalChunks
    members. *)
Theorem received_set_bounded (fa : FrameAssembler) :
  fa_reachable fa →
  (∀ c, c ∈ receivedChunks fa →
        (c < totalChunks fa)%N
        ∧ (c * chunkPayloadSize < N.of_nat (length (buffer fa)))%N)
  ∧ (N.of_nat (size (receivedChunks fa)) ≤ totalChunks fa)%N.
Proof.
  intros Hr. pose proof (fa_reachable_received fa Hr) as H.
  split; [exact H |].
  destruct (size_below (totalChunks fa) (receivedChunks fa)) as [Hle _]; [|lia].
  intros c Hc. by apply H.
Qed.

Lemma received_set_bounded_witness :
  (N.of_nat (size (receivedChunks
                     (stored 20 0 [x01; x02; x03] (FrameAssembler_new 10 open_header))))
   ≤ 2)%N.
Proof.
  refine (proj2 (received_set_bounded
                   (stored 20 0 [x01; x02; x03] (FrameAssembler_new 10 open_header)) _)).
  apply (reach_add 20 0 [x01; x02; x03] (FrameAssembler_new 10 open_header) _ false).
  - apply reach_new.
  - vm_compute. reflexivity.
Defined.

Lemma complete_rejects_all (fa : FrameAssembler) :
  fa_reachable fa → isComplete fa = true → ∀ c, rejects fa c.
Proof.
  intros Hr Hc c. unfold isComplete in Hc. apply N.eqb_eq in Hc.
  destruct (size_below (totalChunks fa) (receivedChunks fa)) as [_ Hall].
  { intros x Hx. by apply (fa_reachable_received fa Hr). }
  unfold rejects. destruct (N.le_gt_cases (totalChunks fa) c) as [? | Hlt]; [by left |].
  right. left. rewrite Hall by lia. by apply elem_of_all_chunks.
Qed.

Lemma addChunks_frozen (cs : list Chunk) (fa : FrameAssembler) :
  (∀ c, rejects fa c) → addChunks cs fa = Ok fa.
Proof.
  intros H. induction cs as [|x cs IH]; [reflexivity |].
  cbn [addChunks]. rewrite addChunk_rejects by apply H. exact IH.
Qed.

(** X2. Completion is reported once. When addChunk on an assembler that was
    built by the constructor and changed by addChunk only returns true, the
    assembler it leaves turns every later chunk away: each further addChunk
    returns false and any run of further calls leaves the assembler as it
    is. *)
Theorem complete_assembler_frozen
    (fa fa1 : FrameAssembler) (now : Z) (cid : N) (payload : list byte) :
  fa_reachable fa →
  addChunk now cid payload fa = Ok (fa1, true) →
  isComplete fa1 = true
  ∧ (∀ now' cid' payload', addChunk now' cid' payload' fa1 = Ok (fa1, false))
  ∧ (∀ cs, addChunks cs fa1 = Ok fa1).
Proof.
  intros Hr E.
  assert (Hr1 : fa_reachable fa1) by (eapply reach_add; eauto).
  assert (Hc : isComplete fa1 = true).
  { destruct (addChunk_cases now cid payload fa) as [[_ Ea] | [_ Ea]];
      rewrite Ea in E; [discriminate |]. by injection E as <- ->. }
  pose proof (complete_rejects_all fa1 Hr1 Hc) as Hall.
  split; [exact Hc |]. split.
  - intros. by apply addChunk_rejects.
  - intros. by apply addChunks_frozen.
Qed.

Lemma complete_assembler_frozen_witness :
  addChunk 30 0 [x09]
    (stored 20 0 [x01; x02; x03] (FrameAssembler_new 10 small_header))
  = Ok (stored 20 0 [x01; x02; x03] (FrameAssembler_new 10 small_header), false).
Proof.
  refine (proj1 (proj2 (complete_assembler_frozen
                          (FrameAssembler_new 10 small_header) _ 20 0 [x01; x02; x03]
                          (reach_new 10 small_header) _)) 30%Z 0%N [x09]).
  vm_compute. reflexivity.
Defined.

(** X3. A chunk that addChunk takes in is written at its offset and nowhere
    else: with off = chunkId * chunkPayloadSize and n = bytesToCopy, byte
    off + j of the buffer becomes byte j of the payload for j < n, every
    other byte of the buffer is the one from before the call, and the payload
    bytes from n on are dropped. *)
Theorem addChunk_writes_window
    (fa fa' : FrameAssembler) (now : Z) (cid : N) (payload : list byte) (b : bool) :
  ¬ rejects fa cid →
  addChunk now cid payload fa = Ok (fa', b) →
  let off := N.to_nat (cid * chunkPayloadSize) in
  let n := N.to_nat (bytesToCopy fa cid payload) in
  (∀ j, (j < n)%nat → buffer fa' !! (off + j)%nat = payload !! j)
  ∧ (∀ i, (i < off ∨ off + n ≤ i)%nat → buffer fa' !! i = buffer fa !! i).
Proof.
  intros Hn E off n. rewrite addChunk_stores in E by exact Hn.
  injection E as <- <-.
  assert (Hoff : (cid * chunkPayloadSize < N.of_nat (length (buffer fa)))%N)
    by (unfold rejects in Hn; lia).
  destruct (bytesToCopy_fits fa cid payload Hoff) as [Hfit Hle].
  unfold stored. cbn [buffer]. fold off n.
  assert (Hlt : (length (take off (buffer fa)) = off)%nat)
    by (rewrite length_take; subst off; lia).
  assert (Hln : (length (take n payload) = n)%nat)
    by (rewrite length_take; subst n; lia).
  split.
  - intros j Hj. rewrite lookup_app_r by lia. rewrite Hlt.
    replace (off + j - off)%nat with j by lia.
    rewrite lookup_app_l by lia. by apply lookup_take_lt.
  - intros i [Hi | Hi].
    + rewrite lookup_app_l by lia. by apply lookup_take_lt.
    + rewrite lookup_app_r by lia. rewrite Hlt.
      rewrite lookup_app_r by lia. rewrite Hln, lookup_drop. f_equal. lia.
Qed.

Lemma addChunk_writes_window_witness :
  buffer (stored 20 0 [x01; x02; x03] (FrameAssembler_new 10 small_header)) !! 4%nat
  = buffer (FrameAssembler_new 10 small_header) !! 4%nat.
Proof.
  refine (proj2 (addChunk_writes_window (FrameAssembler_new 10 small_header)
                   (stored 20 0 [x01; x02; x03] (FrameAssembler_new 10 small_header))
                   20 0 [x01; x02; x03] true _ _) 4%nat _).
  - intros Hr. apply (addChunk_rejects 20 0 [x01; x02; x03]) in Hr.
    vm_compute in Hr. discriminate Hr.
  - vm_compute. reflexivity.
  - right. vm_compute. lia.
Defined.

(* ===================================================================== *)
(* Further properties of the reassembler                                 *)
(* ===================================================================== *)

Lemma push_result (tNew tAdd : Z) (h : StreamInfo) (payload : list byte)
    (r r' : Reassembler) (o : option FrameAssembler) :
  push tNew tAdd h payload r = Ok (r', o) ↔
  ∃ fa' b,
    addChunk tAdd (chunkId h) payload
      (default (FrameAssembler_new tNew h) (frames r !! frameId h)) = Ok (fa', b)
    ∧ r' = {| frames := settle (frameId h) fa' b (frames r);
              maxFrames := maxFrames r |}
    ∧ o = if b then Some fa' else None.
Proof.
  rewrite push_eq.
  destruct (addChunk tAdd (chunkId h) payload _) as [[fa' b]|e];
    cbn [mbind result_bind].
  - split.
    + intros E. exists fa', b. split; [reflexivity |].
      destruct b; injection E as <- <-; by split.
    + intros (fa'' & b' & [= <- <-] & -> & ->). by destruct b.
  - split; [discriminate | intros (? & ? & ? & _); discriminate].
Qed.

Lemma settle_lookup_ne (fid k : N) (fa : FrameAssembler) (b : bool)
    (fs : gmap N FrameAssembler) :
  k ≠ fid → settle fid fa b fs !! k = fs !! k.
Proof.
  intros H. unfold settle. destruct b.
  - by apply lookup_delete_ne.
  - by apply lookup_insert_ne.
Qed.

Lemma settle_commute (f1 f2 : N) (a1 a2 : FrameAssembler) (b1 b2 : bool)
    (fs : gmap N FrameAssembler) :
  f1 ≠ f2 →
  settle f2 a2 b2 (settle f1 a1 b1 fs) = settle f1 a1 b1 (settle f2 a2 b2 fs).
Proof.
  intros H. unfold settle. destruct b1, b2.
  - apply delete_delete.
  - by rewrite delete_insert_ne.
  - by rewrite delete_insert_ne.
  - by apply insert_insert_ne.
Qed.


(** X4. A push touches the table entry of its own frame id only: after any
    run of pushes none of which is for frame id k, the table holds for k what
    it held before (an assembler with the same buffer, received set and last
    update, or nothing), and maxFrames is unchanged. *)
Theorem pushAll_other_frames
    (ds : list Delivery) (r r' : Reassembler) (os : list (option FrameAssembler))
    (k : N) :
  Forall (λ d, frameId (d_header d) ≠ k) ds →
  pushAll ds r = Ok (r', os) →
  frames r' !! k = frames r !! k ∧ maxFrames r' = maxFrames r.
Proof.
  revert r r' os. induction ds as [|d ds IH]; intros r r' os Hall E.
  - cbn in E. by injection E as <- <-.
  - apply Forall_cons in Hall as [Hd Hall]. cbn [pushAll] in E.
    destruct (deliver d r) as [[r1 o]|e] eqn:E1; [|discriminate].
    cbn [mbind result_bind] in E.
    destruct (pushAll ds r1) as [[r2 os2]|e] eqn:E2; [|discriminate].
    cbn [mbind result_bind] in E. injection E as <- <-.
    destruct (IH r1 r2 os2 Hall E2) as [Hk Hm]. rewrite Hk, Hm.
    unfold deliver in E1. apply push_result in E1 as (fa' & b & _ & -> & _).
    cbn [frames maxFrames]. split; [|reflexivity].
    apply settle_lookup_ne. congruence.
Qed.

Lemma pushAll_other_frames_witness :
  ∃ r', pushAll [mk_delivery 5 7 0 2 5 [x01]] two_frames = Ok (r', [None])
        ∧ frames r' !! 2%N = frames two_frames !! 2%N.
Proof.
  destruct (push_total 5 5 (mk_header 7 0 2 5 [x01]) [x01] two_frames)
    as (r' & o & E).
  assert (E' : pushAll [mk_delivery 5 7 0 2 5 [x01]] two_frames = Ok (r', [o])).
  { cbn [pushAll]. unfold deliver. cbn [d_tnew d_tadd d_header d_payload mk_delivery].
    rewrite E. reflexivity. }
  assert (Ho : o = None).
  { apply push_result in E as (fa' & b & Ea & _ & ->).
    rewrite addChunk_stores in Ea.
    - injection Ea as _ <-. reflexivity.
    - intros Hr. apply (addChunk_rejects 5 0 [x01]) in Hr.
      cbn [default from_option id frames two_frames] in Hr. vm_compute in Hr.
      discriminate Hr. }
  subst o. exists r'. split; [exact E' |].
  apply (pushAll_other_frames _ _ _ _ 2%N) in E' as [Hk _]; [exact Hk |].
  repeat constructor. vm_compute. discriminate.
Defined.

(** X5. Two pushes for different frame ids commute: pushed in either order
    they return the same two results and leave the same reassembler. *)
Theorem push_different_frames_commute
    (d1 d2 : Delivery) (r r' : Reassembler) (o1 o2 : option FrameAssembler) :
  frameId (d_header d1) ≠ frameId (d_header d2) →
  pushAll [d1; d2] r = Ok (r', [o1; o2]) →
  pushAll [d2; d1] r = Ok (r', [o2; o1]).
Proof.
  intros Hne E. cbn [pushAll] in E.
  destruct (deliver d1 r) as [[r1 x1]|e] eqn:E1; [|discriminate].
  cbn [mbind result_bind] in E.
  destruct (deliver d2 r1) as [[r2 x2]|e] eqn:E2; [|discriminate].
  cbn [mbind result_bind] in E. injection E as <- <- <-.
  unfold deliver in E1, E2.
  apply push_result in E1 as (a1 & b1 & Ea1 & -> & ->).
  apply push_result in E2 as (a2 & b2 & Ea2 & -> & ->).
  cbn [frames maxFrames] in Ea2 |- *.
  rewrite settle_lookup_ne in Ea2 by congruence.
  assert (P2 : deliver d2 r
               = Ok ({| frames := settle (frameId (d_header d2)) a2 b2 (frames r);
                        maxFrames := maxFrames r |},
                     if b2 then Some a2 else None)).
  { unfold deliver. apply push_result. exists a2, b2. by repeat split. }
  assert (P1 : deliver d1
                 {| frames := settle (frameId (d_header d2)) a2 b2 (frames r);
                    maxFrames := maxFrames r |}
               = Ok ({| frames := settle (frameId (d_header d1)) a1 b1
                                    (settle (frameId (d_header d2)) a2 b2 (frames r));
                        maxFrames := maxFrames r |},
                     if b1 then Some a1 else None)).
  { unfold deliver. apply push_result. exists a1, b1. cbn [frames maxFrames].
    rewrite settle_lookup_ne by congruence. by repeat split. }
  cbn [pushAll]. rewrite P2. cbn [mbind result_bind]. rewrite P1.
  cbn [mbind result_bind]. by rewrite settle_commute.
Qed.

Lemma push_different_frames_commute_witness :
  ∃ r' o1 o2,
    pushAll [mk_delivery 5 7 0 2 5 [x01]; mk_delivery 6 8 0 1 1 [x02]]
      Reassembler_default = Ok (r', [o1; o2])
    ∧ pushAll [mk_delivery 6 8 0 1 1 [x02]; mk_delivery 5 7 0 2 5 [x01]]
        Reassembler_default = Ok (r', [o2; o1]).
Proof.
  assert (∃ r' o1 o2,
            pushAll [mk_delivery 5 7 0 2 5 [x01]; mk_delivery 6 8 0 1 1 [x02]]
              Reassembler_default = Ok (r', [o1; o2])) as (r' & o1 & o2 & E).
  { eexists _, _, _. vm_compute. reflexivity. }
  exists r', o1, o2. split; [exact E |].
  apply (push_different_frames_commute
           (mk_delivery 5 7 0 2 5 [x01]) (mk_delivery 6 8 0 1 1 [x02]));
    [vm_compute; discriminate | exact E].
Defined.



(* ===================================================================== *)
(* Further properties of gc                                              *)
(* ===================================================================== *)

Lemma gc_maxFrames (now maxAgeMs : Z) (r : Reassembler) :
  maxFrames (gc now maxAgeMs r) = maxFrames r.
Proof. unfold gc. by destruct (_ <=? _)%N. Qed.

Lemma gc_under_capacity (now maxAgeMs : Z) (r : Reassembler) :
  (N.of_nat (size (frames r)) ≤ maxFrames r)%N → gc now maxAgeMs r = r.
Proof.
  intros H. unfold gc. destruct (N.leb_spec (N.of_nat (size (frames r))) (maxFrames r));
    [reflexivity | lia].
Qed.

Lemma gc_submap (now maxAgeMs : Z) (r : Reassembler) :
  frames (gc now maxAgeMs r) ⊆ frames r.
Proof.
  apply map_subseteq_spec. intros k fa. rewrite gc_lookup.
  destruct (frames r !! k) as [fa'|]; cbn; [|discriminate].
  destruct (decide _); [discriminate | done].
Qed.

Lemma gc_no_stale (now maxAgeMs : Z) (r : Reassembler) :
  (∀ k fa, frames r !! k = Some fa → ¬ stale now maxAgeMs fa) →
  gc now maxAgeMs r = r.
Proof.
  intros H.
  assert (E : frames (gc now maxAgeMs r) = frames r).
  { apply map_eq. intros k. rewrite gc_lookup.
    destruct (frames r !! k) as [fa|] eqn:Ek; cbn; [|reflexivity].
    rewrite decide_False; [reflexivity |]. intros [_ Hs]. by apply (H k fa). }
  pose proof (gc_maxFrames now maxAgeMs r) as Em.
  destruct (gc now maxAgeMs r) as [fs mf], r as [fs' mf']. cbn in *. congruence.
Qed.

(** X7. gc only removes: every assembler left in the table after gc is one
    that was there before, unchanged, so the table does not grow; and a
    second gc with the same clock reading and age limit changes nothing. *)
Theorem gc_shrinks_idempotent (now maxAgeMs : Z) (r : Reassembler) :
  frames (gc now maxAgeMs r) ⊆ frames r
  ∧ (size (frames (gc now maxAgeMs r)) ≤ size (frames r))%nat
  ∧ gc now maxAgeMs (gc now maxAgeMs r) = gc now maxAgeMs r.
Proof.
  split; [apply gc_submap |]. split.
  - apply map_subseteq_size, gc_submap.
  - destruct (N.le_gt_cases (N.of_nat (size (frames r))) (maxFrames r)) as [Hle | Hgt].
    + by rewrite !(gc_under_capacity now maxAgeMs r Hle).
    + apply gc_no_stale. intros k fa Hk Hs.
      rewrite gc_lookup in Hk.
      destruct (frames r !! k) as [fa'|] eqn:Ek; cbn in Hk; [|discriminate].
      destruct (decide _) as [_ | Hno]; [discriminate |].
      injection Hk as ->. tauto.
Qed.

Lemma isComplete_first_chunk (now : Z) (cid : N) (payload : list byte) (h : StreamInfo)
    (tNew : Z) :
  isComplete (stored now cid payload (FrameAssembler_new tNew h))
  = (1 =? chunksTotal h)%N.
Proof.
  unfold isComplete. cbn [receivedChunks totalChunks stored FrameAssembler_new].
  rewrite (right_id_L ∅ (∪)), size_singleton. reflexivity.
Qed.

(** X8. maxFrames is not a bound on the table. When a datagram with a valid
    header and an in-bounds payload names a frame id that the table does not
    hold and announces a chunksTotal other than 1, and no assembler is older
    than 1000 ms at the clock reading of gc, processBuffer emits nothing and
    leaves the table with one assembler more than before, whatever maxFrames
    is; all assemblers held before are still there. *)
Theorem table_grows_past_capacity
    (tk : Ticks) (data : list byte) (st : Client) (h : StreamInfo) :
  parseMyirHeader data = Some h →
  (HDR_SIZE + payloadLen h ≤ N.of_nat (length data))%N →
  frames (reassembler st) !! frameId h = None →
  chunksTotal h ≠ 1%N →
  (∀ k fa, frames (reassembler st) !! k = Some fa →
           (t_gc tk - lastUpdate fa ≤ 1000)%Z) →
  (t_gc tk - t_new tk ≤ 1000)%Z →
  (t_gc tk - t_add tk ≤ 1000)%Z →
  ∃ st' fa,
    processBuffer tk data st = Ok (st', {| jpegData := None; currentFps := None |})
    ∧ frames (reassembler st') = <[frameId h := fa]> (frames (reassembler st))
    ∧ size (frames (reassembler st')) = S (size (frames (reassembler st)))
    ∧ fpsCounter st' = fpsCounter st.
Proof.
  intros Hp Hfit Habs Hn1 Hfresh Hnew Hadd.
  unfold processBuffer. rewrite Hp. unfold Uint8Array.view.
  destruct (N.ltb_spec (N.of_nat (length data)) (HDR_SIZE + payloadLen h)); [lia |].
  cbn [mbind result_bind].
  set (payload := take (N.to_nat (payloadLen h)) (drop (N.to_nat HDR_SIZE) data)).
  set (fa0 := FrameAssembler_new (t_new tk) h).
  assert (∃ fa, push (t_new tk) (t_add tk) h payload (reassembler st)
                = Ok ({| frames := <[frameId h := fa]> (frames (reassembler st));
                         maxFrames := maxFrames (reassembler st) |}, None)
                ∧ (t_gc tk - lastUpdate fa ≤ 1000)%Z) as (fa & Epush & Hfa).
  { destruct (addChunk_cases (t_add tk) (chunkId h) payload fa0) as [[_ Ea] | [_ Ea]].
    - exists fa0. split; [|exact Hnew].
      apply push_result. exists fa0, false. rewrite Habs. by repeat split.
    - exists (stored (t_add tk) (chunkId h) payload fa0). split; [|exact Hadd].
      apply push_result.
      exists (stored (t_add tk) (chunkId h) payload fa0), false.
      rewrite Habs. cbn [default from_option id]. fold fa0. rewrite Ea.
      subst fa0. rewrite isComplete_first_chunk.
      destruct (N.eqb_spec 1 (chunksTotal h)); [congruence |]. by repeat split. }
  rewrite Epush. cbn [mbind result_bind].
  rewrite gc_no_stale.
  - eexists _, fa. split; [reflexivity |]. cbn [reassembler frames fpsCounter].
    split; [reflexivity |]. split; [|reflexivity].
    by apply map_size_insert_None.
  - cbn [frames]. intros k fa' Hk. unfold stale.
    destruct (decide (k = frameId h)) as [-> | Hne].
    + rewrite lookup_insert_eq in Hk. injection Hk as <-. lia.
    + rewrite lookup_insert_ne in Hk by done. apply Hfresh in Hk. lia.
Qed.

Lemma table_grows_past_capacity_witness :
  ∃ st' fa,
    processBuffer {| t_new := 1000; t_add := 1000; t_fps := 1000; t_gc := 1000 |}
      (encodeMyirHeader (mk_header 9 0 2 5 [x01]) ++ [x01])
      {| reassembler := two_frames; fpsCounter := fpsCounter_init |}
    = Ok (st', {| jpegData := None; currentFps := None |})
    ∧ frames (reassembler st') = <[9%N := fa]> (frames two_frames)
    ∧ size (frames (reassembler st')) = 3%nat.
Proof.
  destruct (table_grows_past_capacity
              {| t_new := 1000; t_add := 1000; t_fps := 1000; t_gc := 1000 |}
              (encodeMyirHeader (mk_header 9 0 2 5 [x01]) ++ [x01])
              {| reassembler := two_frames; fpsCounter := fpsCounter_init |}
              (mk_header 9 0 2 5 [x01]))
    as (st' & fa & E & Hf & Hs & _).
  - vm_compute. reflexivity.
  - vm_compute. discriminate.
  - vm_compute. reflexivity.
  - vm_compute. discriminate.
  - intros k fa Hk. cbn [reassembler two_frames frames] in Hk.
    destruct (decide (k = 1%N)) as [-> | H1].
    { vm_compute in Hk. injection Hk as <-. vm_compute. discriminate. }
    destruct (decide (k = 2%N)) as [-> | H2].
    { vm_compute in Hk. injection Hk as <-. vm_compute. discriminate. }
    rewrite lookup_insert_ne, lookup_singleton_ne in Hk by done.
    discriminate.
  - vm_compute. discriminate.
  - vm_compute. discriminate.
  - exists st', fa. split; [exact E |]. split; [exact Hf |]. exact Hs.
Defined.

(* ===================================================================== *)
(* The counter over a window                                             *)
(* ===================================================================== *)

Lemma fpsRecord_quiet (now : Z) (c : FpsCounter) :
  lastTime c ≠ 0%Z → (now - lastTime c < 1000)%Z →
  fpsRecord now c = ({| count := count c + 1; lastTime := lastTime c |}, None).
Proof.
  intros H0 Hlt. unfold fpsRecord.
  destruct (Z.eqb_spec (lastTime c) 0); [done |]. cbn [count lastTime].
  destruct (Z.leb_spec 1000 (now - lastTime c)); [lia | reflexivity].
Qed.

Lemma fpsRecord_report (now : Z) (c : FpsCounter) :
  lastTime c ≠ 0%Z → (1000 ≤ now - lastTime c)%Z →
  fpsRecord now c
  = ({| count := 0; lastTime := now |},
     Some (inject_Z (Z.of_N (count c + 1) * 1000) / inject_Z (now - lastTime c))%Q).
Proof.
  intros H0 Hle. unfold fpsRecord.
  destruct (Z.eqb_spec (lastTime c) 0); [done |]. cbn [count lastTime].
  destruct (Z.leb_spec 1000 (now - lastTime c)); [reflexivity | lia].
Qed.

Lemma fpsRun_quiet (ts : list Z) :
  ∀ c : FpsCounter,
    lastTime c ≠ 0%Z →
    Forall (λ t, (t - lastTime c < 1000)%Z) ts →
    fpsRun ts c
    = ({| count := count c + N.of_nat (length ts); lastTime := lastTime c |},
       replicate (length ts) None).
Proof.
  induction ts as [|t ts IH]; intros c H0 Hall.
  - cbn. destruct c as [n l]. cbn. f_equal. f_equal. lia.
  - apply Forall_cons in Hall as [Ht Hall]. cbn [fpsRun].
    rewrite fpsRecord_quiet by done.
    rewrite (IH {| count := count c + 1; lastTime := lastTime c |}) by done.
    cbn [count lastTime length replicate]. f_equal. f_equal. lia.
Qed.

Lemma fpsRun_app (ts1 ts2 : list Z) (c : FpsCounter) :
  fpsRun (ts1 ++ ts2) c
  = let '(c1, os1) := fpsRun ts1 c in
    let '(c2, os2) := fpsRun ts2 c1 in
    (c2, os1 ++ os2).
Proof.
  revert c. induction ts1 as [|t ts1 IH]; intros c; cbn [app fpsRun].
  - by destruct (fpsRun ts2 c).
  - destruct (fpsRecord t c) as [c1 o]. rewrite IH.
    destruct (fpsRun ts1 c1) as [c2 os1]. by destruct (fpsRun ts2 c2).
Qed.

(** X9. The rate over a window. Starting from the reset counter, let frames
    complete at a first time t0 (not 0), then at times ts that are all less
    than 1000 ms after t0, then at a time T at least 1000 ms after t0. The
    calls at t0 and ts return nothing; the call at T returns the number of
    all these frames (length ts + 2) times 1000 divided by T - t0, a value
    greater than 0 and at most the number of frames, and leaves the counter
    at count 0 with window start T. *)
Theorem fps_over_window (t0 T : Z) (ts : list Z) :
  t0 ≠ 0%Z →
  Forall (λ t, (t - t0 < 1000)%Z) ts →
  (1000 ≤ T - t0)%Z →
  ∃ rate : Q,
    fpsRun (t0 :: ts ++ [T]) fpsCounter_init
    = ({| count := 0; lastTime := T |},
       None :: replicate (length ts) None ++ [Some rate])
    ∧ (rate == (Z.of_nat (length ts + 2) * 1000) # Z.to_pos (T - t0))%Q
    ∧ (0 < rate)%Q
    ∧ (rate <= inject_Z (Z.of_nat (length ts + 2)))%Q.
Proof.
  intros H0 Hall HT.
  set (c0 := {| count := 1; lastTime := t0 |}).
  assert (E0 : fpsRecord t0 fpsCounter_init = (c0, None)).
  { unfold fpsRecord, fpsCounter_init. cbn [count lastTime Z.eqb].
    destruct (Z.leb_spec 1000 (t0 - t0)); [lia | reflexivity]. }
  set (c1 := {| count := 1 + N.of_nat (length ts); lastTime := t0 |}).
  assert (E1 : fpsRun ts c0 = (c1, replicate (length ts) None))
    by (by apply fpsRun_quiet).
  eexists. split; [|split; [|split]].
  - cbn [fpsRun]. rewrite E0, fpsRun_app, E1. cbn [fpsRun].
    rewrite fpsRecord_report by (subst c1; cbn; done || lia).
    reflexivity.
  - subst c1. cbn [count lastTime]. rewrite rate_value by lia.
    replace (Z.of_N (1 + N.of_nat (length ts) + 1)) with (Z.of_nat (length ts + 2))
      by lia.
    reflexivity.
  - subst c1. cbn [count lastTime]. rewrite rate_value by lia.
    unfold Qlt. cbn [Qnum Qden]. lia.
  - subst c1. cbn [count lastTime]. rewrite rate_value by lia.
    unfold Qle, inject_Z. cbn [Qnum Qden].
    rewrite Z2Pos.id by lia. nia.
Qed.

Lemma fps_over_window_witness :
  ∃ rate : Q,
    fpsRun [5000; 5400; 5800; 6250]%Z fpsCounter_init
    = ({| count := 0; lastTime := 6250 |}, [None; None; None; Some rate])
    ∧ (rate == 4000 # 1250)%Q.
Proof.
  destruct (fps_over_window 5000 6250 [5400; 5800]%Z) as (rate & E & Hr & _).
  - discriminate.
  - repeat constructor.
  - vm_compute. discriminate.
  - exists rate. split; [exact E | exact Hr].
Defined.

(* ===================================================================== *)
(* Further properties of the parser                                      *)
(* ===================================================================== *)

Lemma field_of_field (data : list byte) (a L i l : nat) :
  (i + l ≤ L)%nat →
  field data (a + i) l = drop i (take (i + l) (field data a L)).
Proof.
  intros H. unfold field.
  rewrite take_take. replace ((i + l) `min` L)%nat with (i + l)%nat by lia.
  rewrite <- take_drop_commute, drop_drop. reflexivity.
Qed.

Lemma field_eq_sub (d1 d2 : list byte) (a L : nat) (b l : nat) :
  field d1 a L = field d2 a L →
  (a ≤ b)%nat → (b - a + l ≤ L)%nat →
  field d1 b l = field d2 b l.
Proof.
  intros E Hab Hl. replace b with (a + (b - a))%nat by lia.
  rewrite !(field_of_field _ a L (b - a) l) by exact Hl. by rewrite E.
Qed.

(** X10. The parser reads bytes 0-4 (magic, version), 8-11 (width, height)
    and 20-33 (frameId, frameSize, chunkId, chunksTotal, payloadLen) and
    nothing else: two datagrams of at least 36 bytes that agree on these
    bytes get the same answer, whatever their stream, codec, flags and
    timestamp bytes, their bytes 34-35 and their payloads are. *)
Theorem parse_reads_header_fields_only (d1 d2 : list byte) :
  (36 ≤ length d1)%nat → (36 ≤ length d2)%nat →
  field d1 0 5 = field d2 0 5 →
  field d1 8 4 = field d2 8 4 →
  field d1 20 14 = field d2 20 14 →
  parseMyirHeader d1 = parseMyirHeader d2.
Proof.
  intros H1 H2 Ea Eb Ec. unfold parseMyirHeader.
  rewrite !parse_try_long by assumption. unfold decode_fields.
  rewrite (field_eq_sub d1 d2 0 5 0 4 Ea), (field_eq_sub d1 d2 0 5 4 1 Ea) by lia.
  rewrite (field_eq_sub d1 d2 8 4 8 2 Eb), (field_eq_sub d1 d2 8 4 10 2 Eb) by lia.
  rewrite (field_eq_sub d1 d2 20 14 20 4 Ec), (field_eq_sub d1 d2 20 14 24 4 Ec),
    (field_eq_sub d1 d2 20 14 28 2 Ec), (field_eq_sub d1 d2 20 14 30 2 Ec),
    (field_eq_sub d1 d2 20 14 32 2 Ec) by lia.
  reflexivity.
Qed.

Lemma parse_reads_header_fields_only_witness :
  parseMyirHeader scenario_header
  = parseMyirHeader
      ([x4d; x59; x49; x52; x03; xff; xff; xff; x02; x80; x01; xe0]
       ++ replicate 8 xaa
       ++ [x00; x00; x00; x07; x00; x01; x11; x70; x00; x02; x00; x03; x11; x70;
           xbb; xbb; x01; x02; x03]).
Proof.
  apply parse_reads_header_fields_only; vm_compute; first [reflexivity | lia].
Defined.

(** X11. The 32-byte parser of the earlier client and the 36-byte parser
    agree on every datagram of at least 36 bytes: both answer null, or both
    answer a header with the same frameId, chunkId, chunksTotal, frameSize,
    width and height. *)
Theorem legacy_parser_agrees (data : list byte) :
  (36 ≤ length data)%nat →
  Legacy.parseMyirHeader data = without_payloadLen <$> parseMyirHeader data.
Proof.
  intros H. unfold Legacy.parseMyirHeader, parseMyirHeader.
  rewrite parse_try_long, legacy_parse_try_long by lia.
  cbn [try_catch].
  destruct (be_value (field data 0 4) =? MYIR_MAGIC)%N; [|reflexivity].
  destruct (be_value (field data 4 1) =? MYIR_VER)%N; reflexivity.
Qed.

Lemma legacy_parser_agrees_witness :
  Legacy.parseMyirHeader scenario_header
  = without_payloadLen <$> parseMyirHeader scenario_header.
Proof. apply legacy_parser_agrees. vm_compute. lia. Defined.

(* ===================================================================== *)
(* A frame of one chunk, end to end                                      *)
(* ===================================================================== *)




(* ===================================================================== *)
(* The progress table                                                    *)
(* ===================================================================== *)

Lemma foldr_min_spec (k : N) (ks : list N) :
  foldr N.min k ks ∈ k :: ks ∧ ∀ x, x ∈ k :: ks → (foldr N.min k ks ≤ x)%N.
Proof.
  induction ks as [|y ks [IHin IHle]]; cbn [foldr].
  - split; [by left |]. intros x Hx. apply list_elem_of_singleton in Hx. lia.
  - split.
    + destruct (N.min_spec y (foldr N.min k ks)) as [[_ ->] | [_ ->]].
      * right. by left.
      * apply elem_of_cons in IHin as [-> | Hin]; [by left | by right; right].
    + intros x Hx.
      assert (Hcases : x = y ∨ x ∈ k :: ks).
      { apply elem_of_cons in Hx as [-> | Hx]; [right; by left |].
        apply elem_of_cons in Hx as [-> | Hx]; [by left | right; by right]. }
      destruct Hcases as [-> | Hin]; [lia |].
      specialize (IHle x Hin). lia.
Qed.

Lemma elem_of_keys (fs : gmap N FrameStates.FrameState) (k : N) :
  k ∈ (map_to_list fs).*1 ↔ is_Some (fs !! k).
Proof.
  rewrite list_elem_of_fmap. split.
  - intros ([k' s] & -> & Hin). apply elem_of_map_to_list in Hin. by exists s.
  - intros [s Hs]. exists (k, s). split; [reflexivity |].
    by apply elem_of_map_to_list.
Qed.

Lemma oldestFrame_Some (fs : gmap N FrameStates.FrameState) (k : N) :
  FrameStates.oldestFrame fs = Some k →
  is_Some (fs !! k) ∧ ∀ k', is_Some (fs !! k') → (k ≤ k')%N.
Proof.
  unfold FrameStates.oldestFrame.
  destruct ((map_to_list fs).*1) as [|k0 ks] eqn:E; [discriminate |].
  intros [= <-]. destruct (foldr_min_spec k0 ks) as [Hin Hle]. split.
  - apply elem_of_keys. by rewrite E.
  - intros k' Hk'. apply Hle. rewrite <- E. by apply elem_of_keys.
Qed.

Lemma oldestFrame_nonempty (fs : gmap N FrameStates.FrameState) :
  size fs ≠ 0%nat → ∃ k, FrameStates.oldestFrame fs = Some k.
Proof.
  intros H. unfold FrameStates.oldestFrame.
  destruct ((map_to_list fs).*1) as [|k0 ks] eqn:E; [|by eexists].
  exfalso. apply H. rewrite <- length_map_to_list.
  apply (f_equal length) in E. by rewrite length_fmap in E.
Qed.

Lemma size_track (fid cid total fsize : N) (fs : gmap N FrameStates.FrameState) :
  size (FrameStates.track fid cid total fsize fs)
  = match fs !! fid with Some _ => size fs | None => S (size fs) end.
Proof.
  unfold FrameStates.track. rewrite map_size_insert. by destruct (fs !! fid).
Qed.

Lemma size_evict (fs : gmap N FrameStates.FrameState) :
  size (FrameStates.evict fs) = if (10 <? size fs)%nat then pred (size fs) else size fs.
Proof.
  unfold FrameStates.evict. destruct (Nat.ltb_spec 10 (size fs)) as [Hgt | Hle];
    [|reflexivity].
  destruct (oldestFrame_nonempty fs ltac:(lia)) as [k Hk]. rewrite Hk.
  apply map_size_delete_Some. by apply oldestFrame_Some.
Qed.

(** X13. The eviction of the progress table. When the table holds more than
    10 frames, the frame removed is the one with the least frame id, it is
    the only one removed, and the table is left one entry smaller; a table of
    at most 10 frames is left as it is. *)
Theorem evict_removes_least_frame_id (fs : gmap N FrameStates.FrameState) :
  if decide (10 < size fs)%nat
  then ∃ k, is_Some (fs !! k)
            ∧ (∀ k', is_Some (fs !! k') → (k ≤ k')%N)
            ∧ FrameStates.evict fs = delete k fs
            ∧ size (FrameStates.evict fs) = pred (size fs)
  else FrameStates.evict fs = fs.
Proof.
  destruct (decide (10 < size fs)%nat) as [Hgt | Hle].
  - destruct (oldestFrame_nonempty fs ltac:(lia)) as [k Hk].
    destruct (oldestFrame_Some fs k Hk) as [Hin Hmin].
    exists k. split; [exact Hin |]. split; [exact Hmin |].
    assert (E : FrameStates.evict fs = delete k fs).
    { unfold FrameStates.evict. rewrite Hk.
      destruct (Nat.ltb_spec 10 (size fs)); [reflexivity | lia]. }
    split; [exact E |]. rewrite E. by apply map_size_delete_Some.
  - unfold FrameStates.evict. destruct (Nat.ltb_spec 10 (size fs)); [lia | reflexivity].
Qed.

(** X14. The progress table of the logging client with the 32-byte header
    never holds more than 10 frames: from the empty table, after any sequence
    of datagrams, its size is at most 10; and each datagram adds exactly one
    message to the log. *)
Theorem legacy_progress_table_bounded (buffers : list (list byte)) :
  let st := foldl (λ st b, LegacyClient.processBuffer b st) LegacyClient.init buffers in
  (size (LegacyClient.frameStates st) ≤ 10)%nat
  ∧ length (LegacyClient.messages st) = length buffers.
Proof.
  cbn zeta.
  assert (Hgen : ∀ st0,
            (size (LegacyClient.frameStates st0) ≤ 10)%nat →
            let st := foldl (λ st b, LegacyClient.processBuffer b st) st0 buffers in
            (size (LegacyClient.frameStates st) ≤ 10)%nat
            ∧ length (LegacyClient.messages st)
              = (length (LegacyClient.messages st0) + length buffers)%nat).
  { induction buffers as [|b bs IH]; intros st0 H0; cbn [foldl length].
    - split; [exact H0 | lia].
    - destruct (IH (LegacyClient.processBuffer b st0)) as [Hs Hl].
      + unfold LegacyClient.processBuffer.
        destruct (Legacy.parseMyirHeader b) as [h|]; cbn [LegacyClient.frameStates];
          [|exact H0].
        rewrite size_evict, size_track.
        destruct (LegacyClient.frameStates st0 !! Legacy.frameId h);
          destruct (10 <? _)%nat eqn:Hb;
          first [apply Nat.ltb_lt in Hb | apply Nat.ltb_ge in Hb]; lia.
      + split; [exact Hs |]. rewrite Hl.
        unfold LegacyClient.processBuffer.
        destruct (Legacy.parseMyirHeader b); cbn [LegacyClient.messages];
          rewrite length_app; cbn [length]; lia. }
  destruct (Hgen LegacyClient.init) as [Hs Hl].
  - cbn. rewrite map_size_empty. lia.
  - split; [exact Hs | exact Hl].
Qed.

(** X15. In a full progress table a new frame with the least frame id is
    dropped at once. When the table holds 10 frames, all with a frame id
    above fid, tracking a chunk of frame fid and evicting leaves the table
    exactly as it was, so the progress shown for fid stays 0. *)
Theorem smallest_new_frame_not_tracked
    (fid cid total fsize : N) (fs : gmap N FrameStates.FrameState) :
  size fs = 10%nat →
  (∀ k, is_Some (fs !! k) → (fid < k)%N) →
  FrameStates.evict (FrameStates.track fid cid total fsize fs) = fs
  ∧ FrameStates.progress fid
      (FrameStates.evict (FrameStates.track fid cid total fsize fs)) = 0%nat.
Proof.
  intros Hsz Hlt.
  assert (Habs : fs !! fid = None).
  { destruct (fs !! fid) eqn:E; [|reflexivity].
    specialize (Hlt fid ltac:(by rewrite E)). lia. }
  assert (E : FrameStates.evict (FrameStates.track fid cid total fsize fs) = fs).
  { pose proof (evict_least := oldestFrame_Some (FrameStates.track fid cid total fsize fs)).
    unfold FrameStates.evict. rewrite size_track, Habs, Hsz. cbn [Nat.ltb Nat.leb].
    destruct (oldestFrame_nonempty (FrameStates.track fid cid total fsize fs))
      as [k Hk]; [rewrite size_track, Habs; lia |].
    rewrite Hk. destruct (evict_least k Hk) as [Hin Hmin].
    assert (k = fid) as ->.
    { destruct (decide (k = fid)) as [-> | Hne]; [reflexivity |].
      unfold FrameStates.track in Hin, Hmin. rewrite lookup_insert_ne in Hin by done.
      specialize (Hlt k Hin).
      specialize (Hmin fid ltac:(rewrite lookup_insert_eq; by eexists)). lia. }
    unfold FrameStates.track. rewrite delete_insert_eq. by apply delete_id. }
  split; [exact E |]. rewrite E. unfold FrameStates.progress. by rewrite Habs.
Qed.

Lemma smallest_new_frame_not_tracked_witness :
  FrameStates.evict (FrameStates.track 0 0 2 5 ten_frames) = ten_frames.
Proof.
  refine (proj1 (smallest_new_frame_not_tracked 0 0 2 5 ten_frames _ _)).
  - vm_compute. reflexivity.
  - intros k [s Hs]. destruct (decide (k = 0%N)) as [-> | Hne]; [|lia].
    vm_compute in Hs. discriminate Hs.
Defined.

(* ===================================================================== *)
(* The logging client against the streaming client                       *)
(* ===================================================================== *)


Lemma log_view_throws (tk : Ticks) (data : list byte) (st : LogClient.Client)
    (h : StreamInfo) :
  parseMyirHeader data = Some h →
  (N.of_nat (length data) < HDR_SIZE + payloadLen h)%N →
  LogClient.processBuffer tk data st
  = ({| LogClient.reassembler := LogClient.reassembler st;
        LogClient.fpsCounter := LogClient.fpsCounter st;
        LogClient.frameStates :=
          FrameStates.track (frameId h) (chunkId h) (chunksTotal h) (frameSize h)
            (LogClient.frameStates st);
        LogClient.messages := LogClient.messages st |},
     Throw RangeError).
Proof.
  intros Hp Hlt. unfold LogClient.processBuffer. rewrite Hp. unfold Uint8Array.view.
  destruct (N.ltb_spec (N.of_nat (length data)) (HDR_SIZE + payloadLen h));
    [reflexivity | lia].
Qed.

(** X17. In the logging client a datagram whose payload view raises has
    already been entered in the progress table. When a datagram parses to a
    valid header but announces more payload bytes than it carries,
    processBuffer raises RangeError, logs no message, leaves reassembler and
    fps counter as they were, and the progress table holds the chunk of the
    datagram; nothing is evicted, so for a frame id that is new to the table
    the table grows by one entry, whatever its size was. *)
Theorem log_client_tracks_before_raising
    (tk : Ticks) (data : list byte) (st : LogClient.Client) (h : StreamInfo) :
  parseMyirHeader data = Some h →
  (N.of_nat (length data) < HDR_SIZE + payloadLen h)%N →
  let st' := (LogClient.processBuffer tk data st).1 in
  (LogClient.processBuffer tk data st).2 = Throw RangeError
  ∧ LogClient.messages st' = LogClient.messages st
  ∧ streaming st' = streaming st
  ∧ (∃ s, LogClient.frameStates st' !! frameId h = Some s
          ∧ chunkId h ∈ FrameStates.receivedChunks s)
  ∧ (LogClient.frameStates st !! frameId h = None →
     size (LogClient.frameStates st') = S (size (LogClient.frameStates st))).
Proof.
  intros Hp Hlt. cbn zeta. rewrite (log_view_throws tk data st h Hp Hlt).
  cbn [fst snd LogClient.messages LogClient.frameStates].
  split; [reflexivity |]. split; [reflexivity |]. split; [reflexivity |]. split.
  - unfold FrameStates.track. rewrite lookup_insert_eq. eexists.
    split; [reflexivity |]. cbn. set_solver.
  - intros Habs. by rewrite size_track, Habs.
Qed.

Lemma log_client_tracks_before_raising_witness :
  size (LogClient.frameStates
          (LogClient.processBuffer
             {| t_new := 1; t_add := 2; t_fps := 3; t_gc := 4 |}
             (encodeMyirHeader (mk_header 42 0 2 5 [x01]))
             {| LogClient.reassembler := Reassembler_default;
                LogClient.fpsCounter := fpsCounter_init;
                LogClient.frameStates := ten_frames;
                LogClient.messages := [] |}).1)
  = 11%nat.
Proof.
  refine (proj2 (proj2 (proj2 (proj2
            (log_client_tracks_before_raising _
               (encodeMyirHeader (mk_header 42 0 2 5 [x01])) _
               (mk_header 42 0 2 5 [x01]) _ _)))) _).
  - vm_compute. reflexivity.
  - vm_compute. reflexivity.
  - vm_compute. reflexivity.
Defined.

(** X18. When processBuffer of the logging client returns, a progress table
    of at most 10 frames is left with at most 10 frames, and exactly one
    message has been added to the log. *)
Theorem log_client_table_bounded_on_return
    (tk : Ticks) (data : list byte) (st : LogClient.Client) (shown : Shown) :
  (LogClient.processBuffer tk data st).2 = Ok shown →
  (size (LogClient.frameStates st) ≤ 10)%nat →
  let st' := (LogClient.processBuffer tk data st).1 in
  (size (LogClient.frameStates st') ≤ 10)%nat
  ∧ length (LogClient.messages st') = S (length (LogClient.messages st)).
Proof.
  intros Hok Hsz. cbn zeta. revert Hok. unfold LogClient.processBuffer.
  destruct (parseMyirHeader data) as [h|].
  2:{ intros _. cbn. split; [exact Hsz |]. rewrite length_app. cbn. lia. }
  destruct (Uint8Array.view data HDR_SIZE (payloadLen h)) as [payload|e];
    [|discriminate].
  destruct (push (t_new tk) (t_add tk) h payload (LogClient.reassembler st))
    as [[r1 o]|e]; [|discriminate].
  intros _.
  pose proof (size_track (frameId h) (chunkId h) (chunksTotal h) (frameSize h)
                (LogClient.frameStates st)) as Ht.
  set (fs1 := FrameStates.track (frameId h) (chunkId h) (chunksTotal h) (frameSize h)
                (LogClient.frameStates st)) in *.
  assert (Ht' : (size fs1 ≤ 11)%nat)
    by (destruct (LogClient.frameStates st !! frameId h); lia).
  destruct o as [f|].
  - destruct (fpsRecord (t_fps tk) (LogClient.fpsCounter st)) as [fc rate].
    cbn [fst LogClient.frameStates LogClient.messages].
    split; [|rewrite length_app; cbn; lia].
    rewrite size_evict.
    assert (size (delete (frameId h) fs1) ≤ size fs1)%nat.
    { rewrite map_size_delete. destruct (fs1 !! frameId h); cbn; lia. }
    destruct (10 <? _)%nat eqn:Hb;
      first [apply Nat.ltb_lt in Hb | apply Nat.ltb_ge in Hb]; lia.
  - cbn [fst LogClient.frameStates LogClient.messages].
    split; [|rewrite length_app; cbn; lia].
    rewrite size_evict.
    destruct (10 <? _)%nat eqn:Hb;
      first [apply Nat.ltb_lt in Hb | apply Nat.ltb_ge in Hb]; lia.
Qed.

Lemma log_client_table_bounded_on_return_witness :
  (size (LogClient.frameStates
           (LogClient.processBuffer
              {| t_new := 1; t_add := 2; t_fps := 3; t_gc := 4 |}
              (zero_header ++ [x00])
              {| LogClient.reassembler := Reassembler_default;
                 LogClient.fpsCounter := fpsCounter_init;
                 LogClient.frameStates := ten_frames;
                 LogClient.messages := [] |}).1)
   ≤ 10)%nat.
Proof.
  refine (proj1 (log_client_table_bounded_on_return _ (zero_header ++ [x00]) _
                   {| jpegData := None; currentFps := None |} _ _)).
  - vm_compute. reflexivity.
  - vm_compute. lia.
Defined.

(* ===================================================================== *)
(* stringToHex                                                           *)
(* ===================================================================== *)

Lemma toString16_digits_acc (fuel : nat) :
  ∀ (n : N) (acc : list N),
    toString16_digits fuel n acc = toString16_digits fuel n [] ++ acc.
Proof.
  induction fuel as [|fuel IH]; intros n acc; cbn [toString16_digits]; [reflexivity |].
  destruct (n <? 16)%N; [reflexivity |].
  rewrite (IH _ (_ :: acc)), (IH _ [_]), <- app_assoc. reflexivity.
Qed.

Lemma hex_digit_value_digit (d : N) : (d < 16)%N → hex_digit_value (hex_digit d) = d.
Proof.
  intros H. unfold hex_digit, hex_digit_value.
  destruct (N.ltb_spec d 10).
  - destruct (N.ltb_spec (48 + d) 58); lia.
  - destruct (N.ltb_spec (87 + d) 58); lia.
Qed.

Lemma hex_value_snoc (ds : list N) (d : N) :
  hex_value (ds ++ [d]) = (hex_value ds * 16 + hex_digit_value d)%N.
Proof. unfold hex_value. by rewrite foldl_app. Qed.

Lemma div_mod_16 (n : N) :
  (n = 16 * (n / 16) + n mod 16 ∧ n mod 16 < 16)%N.
Proof.
  split; [apply N.div_mod; lia | apply N.mod_lt; lia].
Qed.

Lemma toString16_digits_value (fuel : nat) :
  ∀ n : N, (n < 16 ^ N.of_nat fuel)%N →
           hex_value (toString16_digits fuel n []) = n.
Proof.
  induction fuel as [|fuel IH]; intros n Hn.
  - cbn in Hn. assert (n = 0%N) by lia. by subst.
  - cbn [toString16_digits]. destruct (div_mod_16 n) as [Ed Hm].
    destruct (N.ltb_spec n 16) as [Hlt | Hge].
    + unfold hex_value. cbn [foldl]. rewrite N.mod_small by exact Hlt.
      rewrite hex_digit_value_digit by exact Hlt. lia.
    + rewrite toString16_digits_acc, hex_value_snoc.
      rewrite hex_digit_value_digit by exact Hm.
      rewrite IH; [lia |].
      replace (N.of_nat (S fuel)) with (N.succ (N.of_nat fuel)) in Hn by lia.
      rewrite N.pow_succ_r' in Hn.
      apply N.Div0.div_lt_upper_bound. exact Hn.
Qed.

(* The digits toString16 produces denote the number: none is lost to the
   bound on the recursion. *)
Lemma toString16_value (n : N) : hex_value (toString16 n) = n.
Proof.
  unfold toString16. apply toString16_digits_value.
  destruct (N.eq_dec n 0%N) as [-> | Hn]; [reflexivity |].
  destruct (N.log2_spec n ltac:(lia)) as [_ Hlt].
  eapply N.lt_le_trans; [exact Hlt |].
  replace (N.of_nat (S (N.to_nat (N.log2 n)))) with (N.succ (N.log2 n)) by lia.
  apply N.pow_le_mono_l. lia.
Qed.

Lemma padded_byte (c : N) :
  (c < 256)%N →
  padStart 2 48 (toString16 c) = [hex_digit (c / 16); hex_digit (c mod 16)].
Proof.
  intros Hc. unfold toString16. cbn [toString16_digits].
  destruct (N.ltb_spec c 16) as [Hlt | Hge].
  - unfold padStart. cbn [length Nat.sub replicate app].
    rewrite N.div_small by exact Hlt. reflexivity.
  - assert (Hl : (4 ≤ N.log2 c)%N).
    { change 4%N with (N.log2 16). by apply N.log2_le_mono. }
    destruct (N.to_nat (N.log2 c)) as [|k] eqn:Ek; [lia |].
    cbn [toString16_digits].
    assert (Hq : (c / 16 < 16)%N) by (apply N.Div0.div_lt_upper_bound; lia).
    destruct (N.ltb_spec (c / 16) 16); [|lia].
    rewrite (N.mod_small (c / 16)) by exact Hq. reflexivity.
Qed.

Lemma stringToHex_loop_groups (rest : list N) :
  Forall (λ c, (c < 256)%N) rest →
  ∀ (i : nat) (hex : list N),
    stringToHex_loop rest i hex = hex ++ hex_groups i rest.
Proof.
  induction 1 as [|c rest Hc _ IH]; intros i hex; cbn [stringToHex_loop hex_groups].
  - by rewrite app_nil_r.
  - rewrite IH, (padded_byte c Hc). unfold hex_group.
    destruct ((i + 1) mod 16 =? 0)%nat; cbn [app]; rewrite <- !app_assoc; reflexivity.
Qed.

Lemma next_line (i : nat) :
  ((i + 1) / 16 = i / 16 + (if ((i + 1) mod 16 =? 0) then 1 else 0))%nat.
Proof.
  pose proof (Nat.div_mod_eq (i + 1) 16). pose proof (Nat.div_mod_eq i 16).
  pose proof (Nat.mod_upper_bound i 16 ltac:(lia)).
  pose proof (Nat.mod_upper_bound (i + 1) 16 ltac:(lia)).
  destruct (Nat.eqb_spec ((i + 1) mod 16) 0); lia.
Qed.

Lemma length_hex_groups (str : list N) :
  ∀ i : nat,
    (length (hex_groups i str) + i / 16
     = 3 * length str + (i + length str) / 16)%nat.
Proof.
  induction str as [|c str IH]; intros i; cbn [hex_groups length].
  - rewrite Nat.add_0_r. lia.
  - rewrite length_app. specialize (IH (S i)).
    replace (i + S (length str))%nat with (S i + length str)%nat by lia.
    pose proof (next_line i) as Hn. replace (i + 1)%nat with (S i) in Hn by lia.
    unfold hex_group. rewrite length_app.
    destruct (S i mod 16 =? 0)%nat eqn:E;
      replace ((i + 1) mod 16 =? 0)%nat with (S i mod 16 =? 0)%nat
        by (f_equal; f_equal; lia);
      rewrite E; cbn [length]; lia.
Qed.

Lemma hex_groups_app (l1 l2 : list N) :
  ∀ i, hex_groups i (l1 ++ l2) = hex_groups i l1 ++ hex_groups (i + length l1) l2.
Proof.
  induction l1 as [|c l1 IH]; intros i; cbn [app hex_groups length].
  - by rewrite Nat.add_0_r.
  - rewrite IH, <- app_assoc. do 3 f_equal. lia.
Qed.

(** X19. The hexadecimal dump of a string of code units below 256. It has
    three characters for each code unit and a line break after each full
    group of 16: its length is 3 * n + n / 16 for a string of n code units;
    and the code unit at index j is found at position 3 * j + j / 16 of the
    dump as its two hexadecimal digits (lower case, most significant first),
    followed by a space. *)
Theorem stringToHex_layout (str : list N) :
  Forall (λ c, (c < 256)%N) str →
  length (stringToHex str) = (3 * length str + length str / 16)%nat
  ∧ ∀ (j : nat) (c : N),
      str !! j = Some c →
      take 3 (drop (3 * j + j / 16) (stringToHex str))
      = [hex_digit (c / 16); hex_digit (c mod 16); 32%N]
      ∧ hex_value [hex_digit (c / 16); hex_digit (c mod 16)] = c.
Proof.
  intros Hall. unfold stringToHex.
  rewrite stringToHex_loop_groups by exact Hall. cbn [app].
  split.
  - pose proof (length_hex_groups str 0) as H.
    change (0 / 16)%nat with 0%nat in H.
    change (0 + length str)%nat with (length str) in H. lia.
  - intros j c Hj. split.
    + pose proof (take_drop_middle str j c Hj) as Hs.
      rewrite <- Hs, hex_groups_app. cbn [hex_groups Nat.add].
      assert (Hlj : length (take j str) = j).
      { rewrite length_take. apply lookup_lt_Some in Hj. lia. }
      pose proof (length_hex_groups (take j str) 0) as Hl.
      rewrite Hlj in Hl. change (0 / 16)%nat with 0%nat in Hl.
      change (0 + j)%nat with j in Hl.
      rewrite drop_app_length' by lia.
      unfold hex_group. reflexivity.
    + assert (Hc : (c < 256)%N).
      { rewrite Forall_forall in Hall. apply Hall.
        by apply list_elem_of_lookup_2 in Hj. }
      destruct (div_mod_16 c) as [Ed Hm].
      assert (Hq : (c / 16 < 16)%N) by (apply N.Div0.div_lt_upper_bound; lia).
      unfold hex_value. cbn [foldl].
      rewrite !hex_digit_value_digit by assumption. lia.
Qed.

Lemma stringToHex_layout_witness :
  length (stringToHex (codes "MYIR"%string)) = 12%nat
  ∧ take 3 (drop 3 (stringToHex (codes "MYIR"%string))) = codes "59 "%string.
Proof.
  destruct (stringToHex_layout (codes "MYIR"%string)) as [Hl Hj].
  - repeat constructor.
  - split; [exact Hl |]. exact (proj1 (Hj 1%nat 89%N eq_refl)).
Defined.

(* ===================================================================== *)
(* uint8ArrayToBase64                                                    *)
(* ===================================================================== *)

Lemma chunkSize_pos : (0 < chunkSize)%nat.
Proof. unfold chunkSize. lia. Qed.

Lemma binary_loop_all (bytes : list byte) (fuel : nat) :
  ∀ (i : nat) (binary : list N),
    (length bytes - i < fuel)%nat →
    binary_loop fuel bytes i binary = binary ++ fromCharCodes (drop i bytes).
Proof.
  pose proof chunkSize_pos as Hcs.
  induction fuel as [|fuel IH]; intros i binary Hf; [lia |].
  cbn [binary_loop]. destruct (Nat.ltb_spec i (length bytes)) as [Hlt | Hge].
  - rewrite IH by lia. rewrite <- app_assoc. f_equal.
    unfold fromCharCodes, subarray. rewrite <- fmap_app. f_equal.
    replace (i + chunkSize)%nat with (i + chunkSize)%nat by reflexivity.
    rewrite <- (drop_drop bytes chunkSize i).
    destruct (Nat.le_gt_cases (i + chunkSize) (length bytes)) as [Hin | Hout].
    + replace ((i + chunkSize) `min` length bytes - i)%nat with chunkSize by lia.
      apply take_drop.
    + rewrite take_ge by (rewrite length_drop; lia).
      rewrite (drop_ge (drop i bytes)) by (rewrite length_drop; lia).
      by rewrite app_nil_r.
  - rewrite drop_ge by lia. unfold fromCharCodes. cbn. by rewrite app_nil_r.
Qed.

(** X20. Converting 8192 bytes at a time loses and reorders nothing: the
    string that uint8ArrayToBase64 hands to btoa has one code unit for each
    byte of the array, in order, each the value of its byte and so below 256
    (the range btoa accepts), whatever the length of the array is. *)
Theorem uint8ArrayToBase64_whole_array (btoa : list N → list N) (bytes : list byte) :
  uint8ArrayToBase64 btoa bytes = btoa (Byte.to_N <$> bytes)
  ∧ length (Byte.to_N <$> bytes) = length bytes
  ∧ Forall (λ c, (c < 256)%N) (Byte.to_N <$> bytes).
Proof.
  split; [|split].
  - unfold uint8ArrayToBase64. rewrite binary_loop_all by lia. reflexivity.
  - apply length_fmap.
  - apply Forall_fmap, Forall_forall. intros b _. apply byte_to_N_lt.
Qed.

(* ===================================================================== *)
(* isBase64Image                                                         *)
(* ===================================================================== *)

Lemma startsWith_take (prefix str : list N) (n : nat) :
  (length prefix ≤ n)%nat → startsWith prefix (take n str) = startsWith prefix str.
Proof.
  intros H. unfold startsWith. rewrite take_take.
  by replace (length prefix `min` n)%nat with (length prefix) by lia.
Qed.

Lemma base64_rest_all (s : list N) :
  Forall (λ c, is_base64_char c = true) s → base64_rest s = true.
Proof.
  induction 1 as [|c s Hc _ IH]; [reflexivity |].
  cbn [base64_rest]. by rewrite Hc.
Qed.

(** X21. isBase64Image looks at the first 100 code units only. A string of
    at most 100 code units is taken for an image exactly when it starts with
    data:image/; two strings of more than 100 code units that agree on their
    first 100 code units get the same answer; and a string of more than 100
    code units whose first 100 are letters, digits, + or / is taken for an
    image whatever follows them. *)
Theorem isBase64Image_first_100 (s s' : list N) :
  ((length s ≤ 100)%nat → isBase64Image s = startsWith (codes "data:image/") s)
  ∧ ((100 < length s)%nat → (100 < length s')%nat → take 100 s = take 100 s' →
     isBase64Image s = isBase64Image s')
  ∧ ((100 < length s)%nat →
     Forall (λ c, is_base64_char c = true) (take 100 s) →
     isBase64Image s = true).
Proof.
  split; [|split].
  - intros H. unfold isBase64Image.
    destruct (Nat.ltb_spec 100 (length s)); [lia |].
    cbn [andb]. apply orb_false_r.
  - intros H H' E. unfold isBase64Image.
    rewrite <- (startsWith_take _ s 100), <- (startsWith_take _ s' 100)
      by (vm_compute; lia).
    rewrite E.
    destruct (Nat.ltb_spec 100 (length s)); [|lia].
    destruct (Nat.ltb_spec 100 (length s')); [|lia]. reflexivity.
  - intros H Hall. unfold isBase64Image.
    destruct (Nat.ltb_spec 100 (length s)); [|lia].
    assert (base64_test (take 100 s) = true) as ->; [|apply orb_true_r].
    destruct (take 100 s) as [|c t] eqn:E.
    + apply (f_equal length) in E. rewrite length_take in E. cbn [length] in E. lia.
    + apply Forall_cons in Hall as [Hc Ht]. cbn [base64_test].
      by rewrite Hc, base64_rest_all.
Qed.

Lemma isBase64Image_first_100_witness :
  isBase64Image (replicate 100 65%N ++ [10%N]) = true
  ∧ isBase64Image (replicate 101 65%N) = isBase64Image (replicate 100 65%N ++ [10%N]).
Proof.
  split.
  - apply (proj2 (proj2 (isBase64Image_first_100 (replicate 100 65%N ++ [10%N]) []))).
    + vm_compute. lia.
    + rewrite take_app_length' by (by rewrite length_replicate).
      apply Forall_replicate. reflexivity.
  - apply (proj1 (proj2 (isBase64Image_first_100 (replicate 101 65%N)
                           (replicate 100 65%N ++ [10%N])))).
    + vm_compute. lia.
    + vm_compute. lia.
    + vm_compute. reflexivity.
Defined.

(* ===================================================================== *)
(* A frame among other traffic                                           *)
(* ===================================================================== *)

Lemma settle_lookup_eq (fid : N) (fa : FrameAssembler) (b : bool)
    (fs : gmap N FrameAssembler) :
  settle fid fa b fs !! fid = if b then None else Some fa.
Proof.
  unfold settle. destruct b; [apply lookup_delete_eq | apply lookup_insert_eq].
Qed.

(* A push reads the table entry of its frame only. *)
Lemma push_same_entry (tNew tAdd : Z) (h : StreamInfo) (payload : list byte)
    (r r2 r' : Reassembler) (o : option FrameAssembler) :
  frames r2 !! frameId h = frames r !! frameId h →
  push tNew tAdd h payload r = Ok (r', o) →
  ∃ r2', push tNew tAdd h payload r2 = Ok (r2', o)
         ∧ frames r2' !! frameId h = frames r' !! frameId h.
Proof.
  intros E Hp. apply push_result in Hp as (fa' & b & Ea & -> & ->).
  eexists. split.
  - apply push_result. exists fa', b. rewrite E. by repeat split.
  - cbn [frames]. by rewrite !settle_lookup_eq.
Qed.

Lemma pushAll_own (fid : N) (ds : list Delivery) :
  ∀ (r r2 r' : Reassembler) (os : list (option FrameAssembler)),
    frames r2 !! fid = frames r !! fid →
    pushAll ds r = Ok (r', os) →
    ∃ r2', pushAll (filter (λ d, frameId (d_header d) = fid) ds) r2
           = Ok (r2', own_results fid ds os)
           ∧ frames r2' !! fid = frames r' !! fid.
Proof.
  induction ds as [|d ds IH]; intros r r2 r' os E Hp.
  - cbn in Hp. injection Hp as <- <-. exists r2. by split.
  - cbn [pushAll] in Hp.
    destruct (deliver d r) as [[r1 o]|e] eqn:E1; [|discriminate].
    cbn [mbind result_bind] in Hp.
    destruct (pushAll ds r1) as [[r1' os1]|e] eqn:E2; [|discriminate].
    cbn [mbind result_bind] in Hp. injection Hp as <- <-.
    unfold own_results. cbn [zip zip_with].
    destruct (decide (frameId (d_header d) = fid)) as [Hf | Hf].
    + rewrite filter_cons_True by exact Hf.
      rewrite (filter_cons_True _ (d, o)) by exact Hf.
      unfold deliver in E1. subst fid.
      destruct (push_same_entry _ _ _ _ r r2 r1 o E E1) as (r3 & E3 & Hl3).
      destruct (IH r1 r3 r1' os1 Hl3 E2) as (r4 & E4 & Hl4).
      exists r4. split; [|exact Hl4].
      cbn [pushAll]. unfold deliver. rewrite E3. cbn [mbind result_bind].
      rewrite E4. reflexivity.
    + rewrite filter_cons_False by exact Hf.
      rewrite (filter_cons_False _ (d, o)) by exact Hf.
      apply (IH r1 r2 r1' os1); [|exact E2].
      unfold deliver in E1. rewrite E.
      symmetry. apply (push_other _ _ _ _ _ _ _ fid E1). congruence.
Qed.

(** X22. Frames are assembled independently of one another. Out of any run
    of pushes, the pushes for frame id fid return what they would have
    returned had the deliveries for all other frame ids never arrived, and
    the table holds in the end the same for fid. *)
Theorem frame_unaffected_by_other_traffic
    (fid : N) (ds : list Delivery) (r r' : Reassembler)
    (os : list (option FrameAssembler)) :
  pushAll ds r = Ok (r', os) →
  ∃ r'', pushAll (filter (λ d, frameId (d_header d) = fid) ds) r
         = Ok (r'', own_results fid ds os)
         ∧ frames r'' !! fid = frames r' !! fid.
Proof. intros E. by apply (pushAll_own fid ds r r r' os). Qed.

Lemma frame_unaffected_by_other_traffic_witness :
  ∃ r' os r'',
    pushAll [mk_delivery 5 7 0 2 5 [x01]; mk_delivery 6 8 0 1 1 [x02];
             mk_delivery 7 7 1 2 5 [x03]] Reassembler_default = Ok (r', os)
    ∧ pushAll [mk_delivery 5 7 0 2 5 [x01]; mk_delivery 7 7 1 2 5 [x03]]
        Reassembler_default
      = Ok (r'', own_results 7
                   [mk_delivery 5 7 0 2 5 [x01]; mk_delivery 6 8 0 1 1 [x02];
                    mk_delivery 7 7 1 2 5 [x03]] os).
Proof.
  assert (∃ r' os,
            pushAll [mk_delivery 5 7 0 2 5 [x01]; mk_delivery 6 8 0 1 1 [x02];
                     mk_delivery 7 7 1 2 5 [x03]] Reassembler_default
            = Ok (r', os)) as (r' & os & E).
  { eexists _, _. vm_compute. reflexivity. }
  destruct (frame_unaffected_by_other_traffic 7 _ _ _ _ E) as (r'' & E' & _).
  exists r', os, r''. split; [exact E | exact E'].
Defined.

(* ===================================================================== *)
(* The received set of a run of addChunk calls                           *)
(* ===================================================================== *)

Lemma rejects_iff (fa : FrameAssembler) (c : N) :
  rejects fa c ↔ ¬ acceptable fa c ∨ c ∈ receivedChunks fa.
Proof.
  unfold rejects, acceptable. split.
  - intros [? | [? | ?]]; [left; lia | by right | left; lia].
  - intros [Hna | Hin]; [|by right; left].
    destruct (N.le_gt_cases (totalChunks fa) c); [by left |].
    destruct (N.le_gt_cases (N.of_nat (length (buffer fa))) (c * chunkPayloadSize));
      [by right; right |].
    exfalso. apply Hna. by split.
Qed.

(** X23. A run of addChunk calls never throws, and the set of received
    chunks it leaves depends on the chunk ids of the run only, not on their
    order, their repetitions or their payloads: it is the set from before
    the run together with those ids of the run that are below totalChunks
    and have their offset inside the buffer. totalChunks, frameSize and the
    buffer length are those from before the run. *)
Theorem addChunks_received_set (cs : list Chunk) (fa : FrameAssembler) :
  ∃ fa',
    addChunks cs fa = Ok fa'
    ∧ receivedChunks fa'
      = receivedChunks fa ∪ list_to_set (filter (acceptable fa) (c_id <$> cs))
    ∧ totalChunks fa' = totalChunks fa
    ∧ fa_frameSize fa' = fa_frameSize fa
    ∧ length (buffer fa') = length (buffer fa).
Proof.
  revert fa. induction cs as [|x cs IH]; intros fa.
  - exists fa. split; [reflexivity |]. split; [|done]. cbn. set_solver.
  - cbn [addChunks fmap list_fmap].
    destruct (addChunk_cases (c_now x) (c_id x) (c_payload x) fa)
      as [[Hr Ea] | [Hn Ea]]; rewrite Ea; cbn [mbind result_bind].
    + destruct (IH fa) as (fa' & E & HR & Ht & Hs & Hl).
      exists fa'. split; [exact E |]. split; [|done]. rewrite HR.
      apply rejects_iff in Hr as [Hna | Hin].
      * by rewrite filter_cons_False.
      * destruct (decide (acceptable fa (c_id x))).
        -- rewrite filter_cons_True by done. cbn [list_to_set]. set_solver.
        -- by rewrite filter_cons_False.
    + destruct (IH (stored (c_now x) (c_id x) (c_payload x) fa))
        as (fa' & E & HR & Ht & Hs & Hl).
      pose proof (stored_length (c_now x) (c_id x) (c_payload x) fa Hn) as Hsl.
      exists fa'. split; [exact E |].
      split; [|rewrite Ht, Hs, Hl, Hsl; done].
      rewrite HR. cbn [receivedChunks stored].
      assert (Hacc : acceptable fa (c_id x)).
      { destruct (decide (acceptable fa (c_id x))) as [? | Hna]; [done |].
        exfalso. apply Hn. apply rejects_iff. by left. }
      rewrite filter_cons_True by exact Hacc. cbn [list_to_set].
      assert (Hsame : filter (acceptable (stored (c_now x) (c_id x) (c_payload x) fa))
                        (c_id <$> cs)
                      = filter (acceptable fa) (c_id <$> cs)).
      { apply list_filter_iff. intros c. unfold acceptable.
        rewrite Hsl. reflexivity. }
      rewrite Hsame. set_solver.
Qed.
